(** * finance-lib: loan amortization, effective interest and payment plans

    A shallow embedding of [src/index.js].  The JavaScript code computes on
    Numbers; it is translated once, over an interface [NumberOps] of the
    Number operations it uses, and read in two instances:

    - [Binary64]: IEEE 754 binary64, the Numbers the program runs on, as
      Rocq's primitive floats.  [Math.pow] is the one operation ECMAScript
      leaves "implementation-approximated"; it is a parameter of the
      instance, constrained where needed by [Pow.faithful].
    - [Exact]: the same operations without rounding error, on the real
      line extended with NaN and the two infinities.  It carries the
      statements that quantify over all loans. *)

From Stdlib Require Import ZArith List String Ascii Bool Lia.
From Stdlib Require Import Floats.
From Stdlib Require Import Reals Lra.
Import ListNotations.

#[local] Set Warnings "-inexact-float".

(** ** The Number interface of the program *)

Declare Scope js_scope.
Delimit Scope js_scope with js.

Class NumberOps (num : Type) : Type := {
  (** a decimal literal [m]e[e], the Number nearest to [m * 10^e] *)
  of_decimal : Z -> Z -> num;
  NaN : num;
  Infinity : num;
  neg : num -> num;
  add : num -> num -> num;
  sub : num -> num -> num;
  mul : num -> num -> num;
  div : num -> num -> num;
  (** [a < b] and [a == b] on Numbers *)
  lt : num -> num -> bool;
  eq : num -> num -> bool;
  Math_pow : num -> num -> num;
  Math_round : num -> num;
  Math_floor : num -> num;
  Math_ceil : num -> num;
  Math_abs : num -> num;
  Math_min : num -> num -> num;
  Number_isFinite : num -> bool;
  (** truthiness of a Number: false for 0 and NaN *)
  ToBoolean : num -> bool;
  (** the abstract operation ToLength, an integer in [0, 2^53 - 1] *)
  ToLength : num -> Z
}.

Notation "a + b" := (add a b) : js_scope.
Notation "a - b" := (sub a b) : js_scope.
Notation "a * b" := (mul a b) : js_scope.
Notation "a / b" := (div a b) : js_scope.
Notation "a < b" := (lt a b) : js_scope.
Notation "a > b" := (lt b a) : js_scope.
Notation "a == b" := (eq a b) (at level 70, no associativity) : js_scope.

(** An integer literal. *)
Definition int {num : Type} {ops : NumberOps num} (z : Z) : num := of_decimal z 0.

(** ** JavaScript values found in fee arrays *)

Inductive JSValue (num : Type) : Type :=
| JSUndefined
| JSNull
| JSBoolean (b : bool)
| JSNumber (n : num)
| JSString (s : string).

Arguments JSUndefined {num}.
Arguments JSNull {num}.
Arguments JSBoolean {num} b.
Arguments JSNumber {num} n.
Arguments JSString {num} s.

(** *** The prefix grammar StrDecimalLiteral read by [parseFloat] *)

Inductive StrDecimal : Type :=
| SDInfinity (negative : bool)
| SDNumber (negative : bool) (mantissa exponent : Z).

Definition digit_of (c : ascii) : option Z :=
  let n := Z.of_N (N_of_ascii c) in
  if ((48 <=? n) && (n <=? 57))%Z then Some (n - 48)%Z else None.

Definition isStrWhiteSpaceChar (c : ascii) : bool :=
  let n := N_of_ascii c in
  ((9 <=? n) && (n <=? 13) || (n =? 32) || (n =? 160))%N.

Fixpoint trimStart (s : list ascii) : list ascii :=
  match s with
  | c :: r => if isStrWhiteSpaceChar c then trimStart r else s
  | [] => []
  end.

(** [DecimalDigits]: the value read so far, the number of digits read, and
    the rest of the input. *)
Fixpoint decimalDigits (acc count : Z) (s : list ascii) : Z * Z * list ascii :=
  match s with
  | c :: r =>
      match digit_of c with
      | Some d => decimalDigits (10 * acc + d)%Z (count + 1)%Z r
      | None => (acc, count, s)
      end
  | [] => (acc, count, [])
  end.

Fixpoint starts_with (p s : list ascii) : option (list ascii) :=
  match p, s with
  | [], _ => Some s
  | a :: p', b :: s' => if Ascii.eqb a b then starts_with p' s' else None
  | _ :: _, [] => None
  end.

Definition signPrefix (s : list ascii) : bool * list ascii :=
  match s with
  | "-"%char :: r => (true, r)
  | "+"%char :: r => (false, r)
  | _ => (false, s)
  end.

(** [ExponentPart], when one follows; otherwise the exponent is 0 and the
    prefix ends before it. *)
Definition exponentPart (s : list ascii) : Z :=
  match s with
  | c :: r =>
      if (Ascii.eqb c "e" || Ascii.eqb c "E")%bool then
        let '(negative, r') := signPrefix r in
        let '(v, count, _) := decimalDigits 0 0 r' in
        if (count =? 0)%Z then 0%Z else if negative then (- v)%Z else v
      else 0%Z
  | [] => 0%Z
  end.

(** The longest prefix of the trimmed input that is a StrDecimalLiteral. *)
Definition strDecimalLiteral (input : string) : option StrDecimal :=
  let '(negative, s) := signPrefix (trimStart (list_ascii_of_string input)) in
  match starts_with (list_ascii_of_string "Infinity") s with
  | Some _ => Some (SDInfinity negative)
  | None =>
      let '(ip, n_ip, s1) := decimalDigits 0 0 s in
      let '(fp, n_fp, s2) :=
        match s1 with
        | "."%char :: r => decimalDigits ip 0 r
        | _ => (ip, 0%Z, s1)
        end in
      if ((n_ip =? 0) && (n_fp =? 0))%Z then None
      else Some (SDNumber negative fp (exponentPart s2 - n_fp))
  end.

(** ** The program, over any instance of the interface *)

Inductive Completion (A : Type) : Type :=
| Return (v : A)
| ThrowRangeError.

Arguments Return {A} v.
Arguments ThrowRangeError {A}.

(** A parameter with a default value: [None] is an argument left out. *)
Definition with_default {A : Type} (arg : option A) (d : A) : A :=
  match arg with
  | Some a => a
  | None => d
  end.

(** The part of a [Date] the program reads. *)
Record Date : Type := {
  getFullYear : Z;
  getMonth : Z
}.

Record YearMonth : Type := {
  ym_year : Z;
  ym_month : Z
}.

Record ScheduleEntry (num : Type) : Type := {
  downPayment : num;
  feesPaid : num;
  remainder : num;
  interest : num;
  year : Z;
  month : Z
}.

Arguments downPayment {num} _.
Arguments feesPaid {num} _.
Arguments remainder {num} _.
Arguments interest {num} _.
Arguments year {num} _.
Arguments month {num} _.

Record Bisection (num : Type) : Type := {
  high : num;
  low : num;
  guess : num;
  previousGuess : num
}.

Arguments high {num} _.
Arguments low {num} _.
Arguments guess {num} _.
Arguments previousGuess {num} _.

(** [do { st = body(st) } while (cond(st))], run for at most [fuel] rounds;
    [None] when the fuel runs out before the condition fails. *)
Fixpoint do_while {S : Type} (fuel : nat) (body : S -> S) (cond : S -> bool)
  (st : S) : option S :=
  match fuel with
  | O => None
  | Datatypes.S fuel' =>
      let st' := body st in
      if cond st' then do_while fuel' body cond st' else Some st'
  end.

(** The callback of [Array.from] called at the indices [i], [i+1], ...; the
    variable the callback closes over and assigns is threaded as [s]. *)
Fixpoint array_from_loop {S A : Type} (n : nat) (i : Z) (mapFn : S -> Z -> A * S)
  (s : S) : list A :=
  match n with
  | O => []
  | Datatypes.S n' =>
      let '(a, s') := mapFn s i in
      a :: array_from_loop n' (i + 1)%Z mapFn s'
  end.

Section Finance.

Context {num : Type} {ops : NumberOps num}.
Local Open Scope js_scope.

(** [parseFloat] of a string: the Number of its longest numeric prefix. *)
Definition parseFloat_string (s : string) : num :=
  match strDecimalLiteral s with
  | None => NaN
  | Some (SDInfinity negative) => if negative then neg Infinity else Infinity
  | Some (SDNumber negative m e) =>
      if negative then neg (of_decimal m e) else of_decimal m e
  end.

(** [parseFloat] converts its argument to a string and reads that.  A Number
    prints to a string that reads back as itself, except that both zeros
    print as "0". *)
Definition parseFloat (value : JSValue num) : num :=
  match value with
  | JSNumber n => if n == int 0 then int 0 else n
  | JSString s => parseFloat_string s
  | JSUndefined => parseFloat_string "undefined"
  | JSNull => parseFloat_string "null"
  | JSBoolean b => parseFloat_string (if b then "true" else "false")
  end.

Definition isNumber (value : JSValue num) : bool :=
  Number_isFinite (parseFloat value).

Definition sumArray (arr : list (JSValue num)) : num :=
  fold_left (fun acc e => acc + parseFloat e) (filter isNumber arr) (int 0).

Definition roundDecimals (n : num) (decimals : option num) : num :=
  let decimals := with_default decimals (int 2) in
  let rounding := if ToBoolean decimals then Math_pow (int 10) decimals else int 1 in
  Math_round (n * rounding) / rounding.

Definition _amortization (loanAmount rate period : num) : num :=
  let ratePerPeriod := rate / int 12 in
  let buildNumerator := fun numInterestAccruals =>
    ratePerPeriod * Math_pow (int 1 + ratePerPeriod) numInterestAccruals in
  let numerator := buildNumerator (period * int 12) in
  let denominator := Math_pow (int 1 + ratePerPeriod) (period * int 12) - int 1 in
  let am := loanAmount * (numerator / denominator) in
  roundDecimals am None.

Definition amortizationWithFees (loanAmount rate period : num)
  (principalFees periodFees : option (list (JSValue num))) : num :=
  let principalFees := with_default principalFees [] in
  let periodFees := with_default periodFees [] in
  _amortization (loanAmount + sumArray principalFees) rate period
  + sumArray periodFees.

Definition effectiveInterest_body (loanAmount monthlyPayment period paymentsPerYear : num)
  (st : Bisection num) : Bisection num :=
  let previousGuess := guess st in
  let guess := (high st - low st) / int 2 + low st in
  let prov :=
    (monthlyPayment * guess * (int 1 - Math_pow guess (period * paymentsPerYear)))
    / (int 1 - guess)
    / Math_pow guess (period * paymentsPerYear + int 1) in
  if prov < loanAmount
  then {| high := guess; low := low st; guess := guess; previousGuess := previousGuess |}
  else {| high := high st; low := guess; guess := guess; previousGuess := previousGuess |}.

Definition effectiveInterest_cond (guessLimit : num) (st : Bisection num) : bool :=
  Math_abs (guess st - previousGuess st) > guessLimit.

Definition effectiveInterest_init : Bisection num :=
  {| high := int 2; low := int 1; guess := int 0; previousGuess := int 0 |}.

Definition effectiveInterest (fuel : nat) (loanAmount monthlyPayment period : num)
  : option num :=
  let paymentsPerYear := int 12 in
  let precision := int 5 in
  let guessLimit := Math_pow (int 10) (neg (int 1) * precision) in
  match do_while fuel
          (effectiveInterest_body loanAmount monthlyPayment period paymentsPerYear)
          (effectiveInterest_cond guessLimit)
          effectiveInterest_init with
  | Some st =>
      let foundRate := Math_pow (guess st) paymentsPerYear in
      Some (roundDecimals (foundRate - int 1) (Some (int 4)))
  | None => None
  end.

Definition dateAtIndex (i : Z) (d : Date) : YearMonth :=
  let offset := (i + getMonth d)%Z in
  let yearsAhead := (offset / 12)%Z in
  let year := (getFullYear d + yearsAhead)%Z in
  let month := (offset - yearsAhead * 12)%Z in
  {| ym_year := year; ym_month := month |}.

(** [Array.from({ length }, mapFn)]: the length goes through ToLength, and an
    array longer than 2^32 - 1 cannot be created. *)
Definition Array_from {S A : Type} (length : num) (mapFn : S -> Z -> A * S) (s : S)
  : Completion (list A) :=
  let len := ToLength length in
  if (len >? 2 ^ 32 - 1)%Z then ThrowRangeError
  else Return (array_from_loop (Z.to_nat len) 0 mapFn s).

(** [date] is the value of [new Date()] at the call. *)
Definition paymentPlanFromToday (date : Date) (loanAmount rate period : num)
  (principalFees periodFees : option (list (JSValue num)))
  : Completion (list (ScheduleEntry num)) :=
  let principalFees := with_default principalFees [] in
  let periodFees := with_default periodFees [] in
  let months := period * int 12 in
  let monthlyRate := rate / int 12 in
  let remainder := loanAmount in
  let baseDownPayment := _amortization loanAmount rate period in
  Array_from months (fun remainder i =>
    let feesPaid :=
      sumArray periodFees + (if (i =? 0)%Z then sumArray principalFees else int 0) in
    let interest := Math_floor (remainder * monthlyRate) in
    let downPayment := Math_ceil (Math_min (baseDownPayment - interest) remainder) in
    let remainder := remainder - downPayment in
    let ym := dateAtIndex (i + 1) date in
    ({| downPayment := downPayment; feesPaid := feesPaid; remainder := remainder;
        interest := interest; year := ym_year ym; month := ym_month ym |},
     remainder)) remainder.

End Finance.

(** ** Binary64: the Numbers of the running program *)

Module B64.

(** The float with the integer value [z] (exact for [|z| <= 2^53]). *)
Definition of_Z (z : Z) : float :=
  SF2Prim (binary_normalize prec emax z 0 false).

(** The float nearest to [p/q], ties to even, with the given sign.  The
    quotient is taken with at least 66 bits; its last bit records whether
    anything was left over. *)
Definition nearest (negative : bool) (p q : positive) : float :=
  let k := Z.max 0 (Z.log2 (Zpos q) - Z.log2 (Zpos p) + 66) in
  let '(a, r) := Z.div_eucl (Zpos p * 2 ^ k) (Zpos q) in
  let a' := (2 * a + (if r =? 0 then 0 else 1))%Z in
  SF2Prim (binary_normalize prec emax (if negative then - a' else a') (- k - 1) true).

Definition of_decimal (m e : Z) : float :=
  match m with
  | Z0 => zero
  | Zpos p =>
      if (0 <=? e)%Z then nearest false (p * Z.to_pos (10 ^ e)) 1
      else nearest false p (Z.to_pos (10 ^ (- e)))
  | Zneg p =>
      if (0 <=? e)%Z then nearest true (p * Z.to_pos (10 ^ e)) 1
      else nearest true p (Z.to_pos (10 ^ (- e)))
  end.

(** The signed mantissa [n] and exponent [e] of a finite float [n * 2^e]. *)
Definition signed (s : bool) (m : positive) : Z := if s then Zneg m else Zpos m.

(** [Math.floor]: the greatest integer not above [x]. *)
Definition floor (x : float) : float :=
  match Prim2SF x with
  | S754_finite s m e =>
      if (0 <=? e)%Z then x
      else
        let q := (signed s m / 2 ^ (- e))%Z in
        if (q =? 0)%Z then zero else of_Z q
  | _ => x
  end.

(** [Math.ceil]: the least integer not below [x]; -0 for [-1 < x < 0]. *)
Definition ceil (x : float) : float :=
  match Prim2SF x with
  | S754_finite s m e =>
      if (0 <=? e)%Z then x
      else
        let q := (- ((- signed s m) / 2 ^ (- e)))%Z in
        if (q =? 0)%Z then neg_zero else of_Z q
  | _ => x
  end.

(** [Math.round]: the nearest integer, a tie going to the one closer to
    +Infinity; -0 for [-0.5 <= x < 0]. *)
Definition round (x : float) : float :=
  match Prim2SF x with
  | S754_finite s m e =>
      if (0 <=? e)%Z then x
      else
        let q := ((2 * signed s m + 2 ^ (- e)) / 2 ^ (1 - e))%Z in
        if (q =? 0)%Z then (if s then neg_zero else zero) else of_Z q
  | _ => x
  end.

(** [Math.min]: NaN when an argument is, and -0 below +0. *)
Definition min (a b : float) : float :=
  if (is_nan a || is_nan b)%bool then nan
  else if (a <? b)%float then a
  else if (b <? a)%float then b
  else if get_sign a then a else b.

Definition ToBoolean (x : float) : bool :=
  negb (is_nan x || is_zero x).

(** ToLength: truncate, then clamp to [0, 2^53 - 1]; NaN gives 0. *)
Definition ToLength (x : float) : Z :=
  match Prim2SF x with
  | S754_finite false m e =>
      Z.min (2 ^ 53 - 1) (if (0 <=? e)%Z then Zpos m * 2 ^ e else Zpos m / 2 ^ (- e))
  | S754_infinity false => (2 ^ 53 - 1)%Z
  | _ => 0%Z
  end.

End B64.

Definition Binary64 (pow : float -> float -> float) : NumberOps float := {|
  of_decimal := B64.of_decimal;
  NaN := nan;
  Infinity := infinity;
  neg := PrimFloat.opp;
  add := PrimFloat.add;
  sub := PrimFloat.sub;
  mul := PrimFloat.mul;
  div := PrimFloat.div;
  lt := PrimFloat.ltb;
  eq := PrimFloat.eqb;
  Math_pow := pow;
  Math_round := B64.round;
  Math_floor := B64.floor;
  Math_ceil := B64.ceil;
  Math_abs := PrimFloat.abs;
  Math_min := B64.min;
  Number_isFinite := is_finite;
  ToBoolean := B64.ToBoolean;
  ToLength := B64.ToLength
|}.

(** *** What is assumed of [Math.pow]

    ECMAScript leaves the result of [Math.pow] "implementation-approximated".
    For a positive finite base and an integral exponent the exact power is a
    rational number [p/q * 2^E]; [Pow.down] and [Pow.up] are the floats just
    below and just above it, equal when the power is itself a float.  The
    power of 1 is 1. *)

Module Pow.

(** The integer a float is, when it is one. *)
Definition integral (y : float) : option Z :=
  match Prim2SF y with
  | S754_zero _ => Some 0%Z
  | S754_finite s m e =>
      if (0 <=? e)%Z then Some (B64.signed s m * 2 ^ e)%Z
      else if (Zpos m mod 2 ^ (- e) =? 0)%Z then Some (B64.signed s m / 2 ^ (- e))%Z
      else None
  | _ => None
  end.

(** [m = m' * 2^t] with [m'] odd. *)
Fixpoint odd_part (m : positive) : positive * Z :=
  match m with
  | xO m' => let '(o, t) := odd_part m' in (o, (t + 1)%Z)
  | _ => (m, 0%Z)
  end.

(** A positive finite base [m * 2^e] with [m] odd, and the integer [n] that
    the exponent is. *)
Definition parts (b y : float) : option (positive * Z * Z) :=
  match Prim2SF b, integral y with
  | S754_finite false m0 e0, Some n =>
      let '(m, t) := odd_part m0 in
      if (Z.abs n <=? 2 ^ 16)%Z then Some (m, (e0 + t)%Z, n) else None
  | _, _ => None
  end.

Definition exact (b y : float) : option (positive * positive * Z) :=
  if (b =? 1)%float then
    if is_finite y then Some (1%positive, 1%positive, 0%Z) else None
  else
    match parts b y with
    | Some (m, e, n) =>
        if (0 <=? n)%Z then Some (Z.to_pos (Zpos m ^ n), 1%positive, (e * n)%Z)
        else Some (1%positive, Z.to_pos (Zpos m ^ (- n)), (e * n)%Z)
    | None => None
    end.

(** [p/q * 2^E] cut to 53 bits: the mantissa, its exponent, and whether
    anything was cut off. *)
Definition bracket (p q : positive) (E : Z) : Z * Z * bool :=
  let k := Z.max 0 (Z.log2 (Zpos q) - Z.log2 (Zpos p) + 66) in
  let '(a, r) := Z.div_eucl (Zpos p * 2 ^ k) (Zpos q) in
  let s := (Z.log2 a - 52)%Z in
  let m := Z.shiftr a s in
  (m, (E - k + s)%Z, negb ((r =? 0) && (Z.shiftl m s =? a))%Z).

(** The two floats around a number cut to 53 bits, when it is in the range
    of normal floats. *)
Definition floats_around (cut : Z * Z * bool) : option (float * float) :=
  let '(m, e, inexact) := cut in
  if ((emin <=? e) && (e <? emax - prec))%Z then
    Some (SF2Prim (binary_normalize prec emax m e false),
          SF2Prim (binary_normalize prec emax (if inexact then m + 1 else m) e false))
  else None.

(** The two floats around the exact power. *)
Definition around (b y : float) : option (float * float) :=
  match exact b y with
  | Some (p, q, E) => floats_around (bracket p q E)
  | None => None
  end.

Definition dom (b y : float) : bool :=
  match around b y with
  | Some _ => true
  | None => false
  end.

Definition down (b y : float) : float :=
  match around b y with
  | Some (d, _) => d
  | None => nan
  end.

Definition up (b y : float) : float :=
  match around b y with
  | Some (_, u) => u
  | None => nan
  end.

(** A faithful [Math.pow]: one of the two floats around the exact power. *)
Definition faithful (pow : float -> float -> float) : Prop :=
  forall b y, dom b y = true -> pow b y = down b y \/ pow b y = up b y.

End Pow.

(** ** Exact: the same operations without rounding error *)

Module Ex.

Inductive xreal : Type :=
| XNaN
| XInf (negative : bool)
| XFin (r : R).

Definition negative (r : R) : bool := if Rlt_dec r 0 then true else false.
Definition is_zero (r : R) : bool := if Req_dec_T r 0 then true else false.
Definition is_integer (r : R) : bool := if Req_dec_T (IZR (Zfloor r)) r then true else false.

Definition of_decimal (m e : Z) : xreal := XFin (IZR m * powerRZ 10 e).

Definition neg (a : xreal) : xreal :=
  match a with
  | XNaN => XNaN
  | XInf s => XInf (negb s)
  | XFin r => XFin (- r)
  end.

Definition add (a b : xreal) : xreal :=
  match a, b with
  | XNaN, _ | _, XNaN => XNaN
  | XInf s, XInf t => if Bool.eqb s t then XInf s else XNaN
  | XInf s, XFin _ | XFin _, XInf s => XInf s
  | XFin x, XFin y => XFin (x + y)
  end.

Definition sub (a b : xreal) : xreal := add a (neg b).

Definition mul (a b : xreal) : xreal :=
  match a, b with
  | XNaN, _ | _, XNaN => XNaN
  | XInf s, XInf t => XInf (xorb s t)
  | XInf s, XFin y | XFin y, XInf s =>
      if is_zero y then XNaN else XInf (xorb s (negative y))
  | XFin x, XFin y => XFin (x * y)
  end.

Definition div (a b : xreal) : xreal :=
  match a, b with
  | XNaN, _ | _, XNaN => XNaN
  | XInf _, XInf _ => XNaN
  | XInf s, XFin y => XInf (xorb s (negative y))
  | XFin _, XInf _ => XFin 0
  | XFin x, XFin y =>
      if is_zero y then (if is_zero x then XNaN else XInf (negative x))
      else XFin (x / y)
  end.

Definition lt (a b : xreal) : bool :=
  match a, b with
  | XNaN, _ | _, XNaN => false
  | XInf s, XInf t => s && negb t
  | XInf s, XFin _ => s
  | XFin _, XInf t => negb t
  | XFin x, XFin y => if Rlt_dec x y then true else false
  end.

Definition eq (a b : xreal) : bool :=
  match a, b with
  | XNaN, _ | _, XNaN => false
  | XInf s, XInf t => Bool.eqb s t
  | XFin x, XFin y => if Req_dec_T x y then true else false
  | _, _ => false
  end.

(** Number::exponentiate.  A positive base is raised by [Rpower]; a
    negative one has a power only at an integer. *)
Definition pow (a b : xreal) : xreal :=
  match b with
  | XNaN => XNaN
  | XInf t =>
      match a with
      | XNaN => XNaN
      | XInf _ => if t then XFin 0 else XInf false
      | XFin x =>
          if Rlt_dec 1 (Rabs x) then (if t then XFin 0 else XInf false)
          else if Rlt_dec (Rabs x) 1 then (if t then XInf false else XFin 0)
          else XNaN
      end
  | XFin y =>
      if is_zero y then XFin 1
      else
        match a with
        | XNaN => XNaN
        | XInf s =>
            if negative y then XFin 0
            else XInf (s && is_integer y && Z.odd (Zfloor y))
        | XFin x =>
            if Rlt_dec 0 x then XFin (Rpower x y)
            else if is_zero x then (if negative y then XInf false else XFin 0)
            else if is_integer y then XFin (powerRZ x (Zfloor y))
            else XNaN
        end
  end.

(** [Math.round]: the nearest integer, a tie going up. *)
Definition round (a : xreal) : xreal :=
  match a with
  | XFin x =>
      let f := Zfloor x in
      if Rlt_dec (x - IZR f) (1 / 2) then XFin (IZR f) else XFin (IZR (f + 1))
  | _ => a
  end.

Definition floor (a : xreal) : xreal :=
  match a with
  | XFin x => XFin (IZR (Zfloor x))
  | _ => a
  end.

Definition ceil (a : xreal) : xreal :=
  match a with
  | XFin x => XFin (IZR (Zceil x))
  | _ => a
  end.

Definition abs (a : xreal) : xreal :=
  match a with
  | XNaN => XNaN
  | XInf _ => XInf false
  | XFin x => XFin (Rabs x)
  end.

Definition min (a b : xreal) : xreal :=
  match a, b with
  | XNaN, _ | _, XNaN => XNaN
  | _, _ => if lt b a then b else a
  end.

Definition isFinite (a : xreal) : bool :=
  match a with
  | XFin _ => true
  | _ => false
  end.

Definition ToBoolean (a : xreal) : bool :=
  match a with
  | XNaN => false
  | XInf _ => true
  | XFin x => negb (is_zero x)
  end.

Definition ToLength (a : xreal) : Z :=
  match a with
  | XNaN => 0%Z
  | XInf s => if s then 0%Z else (2 ^ 53 - 1)%Z
  | XFin x => Z.max 0 (Z.min (2 ^ 53 - 1) (Zfloor x))
  end.

End Ex.

Definition Exact : NumberOps Ex.xreal := {|
  of_decimal := Ex.of_decimal;
  NaN := Ex.XNaN;
  Infinity := Ex.XInf false;
  neg := Ex.neg;
  add := Ex.add;
  sub := Ex.sub;
  mul := Ex.mul;
  div := Ex.div;
  lt := Ex.lt;
  eq := Ex.eq;
  Math_pow := Ex.pow;
  Math_round := Ex.round;
  Math_floor := Ex.floor;
  Math_ceil := Ex.ceil;
  Math_abs := Ex.abs;
  Math_min := Ex.min;
  Number_isFinite := Ex.isFinite;
  ToBoolean := Ex.ToBoolean;
  ToLength := Ex.ToLength
|}.

(** ** What the specification says, in its own words *)

Section Reference.

Context {num : Type} {ops : NumberOps num}.
Local Open Scope js_scope.

(** "Sum [principalFees], ignoring non-numeric entries": one pass over the
    fee list that adds the entries that are finite numbers and skips the
    others. *)
Fixpoint sum_skipping (acc : num) (fees : list (JSValue num)) : num :=
  match fees with
  | [] => acc
  | e :: rest =>
      if isNumber e then sum_skipping (acc + parseFloat e) rest
      else sum_skipping acc rest
  end.

(** Each entry's remainder is the previous remainder minus its down
    payment, starting from [prev]. *)
Fixpoint remainder_recurrence (prev : num) (plan : list (ScheduleEntry num)) : Prop :=
  match plan with
  | [] => True
  | e :: rest =>
      remainder e = prev - downPayment e /\ remainder_recurrence (remainder e) rest
  end.

(** The remainder never increases, starting from [prev]. *)
Fixpoint remainder_never_increases (prev : num) (plan : list (ScheduleEntry num)) : Prop :=
  match plan with
  | [] => True
  | e :: rest =>
      (prev < remainder e) = false /\ remainder_never_increases (remainder e) rest
  end.

(** The bisection of section 4.3: the state is the bracket and the last
    guess, if any; [tolerance] is the fixed 1e-5. *)
Record RefBisection : Type := {
  ref_low : num;
  ref_high : num;
  ref_last : option num
}.

Definition ref_provisional (monthlyPayment n g : num) : num :=
  monthlyPayment * g * (int 1 - Math_pow g n) / (int 1 - g) / Math_pow g (n + int 1).

Fixpoint ref_bisect (fuel : nat) (loanAmount monthlyPayment n : num)
  (st : RefBisection) : option num :=
  match fuel with
  | O => None
  | S fuel' =>
      let g := ref_low st + (ref_high st - ref_low st) / int 2 in
      let st' :=
        if ref_provisional monthlyPayment n g < loanAmount
        then {| ref_low := ref_low st; ref_high := g; ref_last := Some g |}
        else {| ref_low := g; ref_high := ref_high st; ref_last := Some g |} in
      let converged :=
        match ref_last st with
        | Some g0 => negb (Math_abs (g - g0) > of_decimal 1 (-5))
        | None => false
        end in
      if converged then Some g
      else ref_bisect fuel' loanAmount monthlyPayment n st'
  end.

Definition solveEffectiveRate (fuel : nat) (loanAmount monthlyPayment period : num)
  : option num :=
  match ref_bisect fuel loanAmount monthlyPayment (period * int 12)
          {| ref_low := int 1; ref_high := int 2; ref_last := None |} with
  | Some g =>
      let annualRate := Math_pow g (int 12) - int 1 in
      Some (Math_round (annualRate * of_decimal 1 4) / of_decimal 1 4)
  | None => None
  end.

(** [remainder_never_increases], as a test. *)
Fixpoint never_increases_b (prev : num) (plan : list (ScheduleEntry num)) : bool :=
  match plan with
  | [] => true
  | e :: rest => negb (prev < remainder e) && never_increases_b (remainder e) rest
  end.

End Reference.

(** "Payment [= loanAmount * (r * (1+r)^n) / ((1+r)^n - 1)]" with
    [r = rate / 12] and [n = period * 12]. *)
Definition amortization_formula (loanAmount rate period : R) : R :=
  let r := (rate / 12)%R in
  let n := (period * 12)%R in
  (loanAmount * (r * Rpower (1 + r) n) / (Rpower (1 + r) n - 1))%R.

(** [y] is [x] rounded to [d] decimal places, a half going up. *)
Definition rounded_half_up (d : nat) (x y : R) : Prop :=
  exists k : Z,
    y = (IZR k / 10 ^ d)%R /\ (x * 10 ^ d - 1 / 2 < IZR k <= x * 10 ^ d + 1 / 2)%R.

(** The comparison of test.js: [value] is within 0.0003 of [midpoint]. *)
Definition between (midpoint value : float) : bool :=
  ((midpoint - B64.of_decimal 3 (-4) <=? value)
   && (value <=? midpoint + B64.of_decimal 3 (-4)))%float.

(** ** Definitions used in the proofs *)

Section Decomposition.

Context {num : Type} {ops : NumberOps num}.
Local Open Scope js_scope.

(** The callback of [paymentPlanFromToday]; the schedule is the loop of
    [Array.from] over the months with it. *)
Definition plan_step (date : Date) (baseDownPayment monthlyRate : num)
  (principalFees periodFees : list (JSValue num)) (remainder : num) (i : Z)
  : ScheduleEntry num * num :=
  let feesPaid :=
    sumArray periodFees + (if (i =? 0)%Z then sumArray principalFees else int 0) in
  let interest := Math_floor (remainder * monthlyRate) in
  let downPayment := Math_ceil (Math_min (baseDownPayment - interest) remainder) in
  let remainder := remainder - downPayment in
  let ym := dateAtIndex (i + 1) date in
  ({| downPayment := downPayment; feesPaid := feesPaid; remainder := remainder;
      interest := interest; year := ym_year ym; month := ym_month ym |},
   remainder).

(** The bracket and last guess of the reference bisection, in a state of
    the program's loop. *)
Definition ref_state (st : Bisection num) : RefBisection :=
  {| ref_low := low st; ref_high := high st; ref_last := Some (guess st) |}.

End Decomposition.

(** *** Binary64: the floats around a power, without the whole power

    The 53 leading bits of [m ^ n] are those of a lower and of an upper bound
    of it that agree on them; the bounds are kept to 128 bits. *)

Module FastPow.

Local Open Scope Z_scope.

Definition precision : Z := 128.

(** Bounds [lo * 2^e <= x <= hi * 2^e] cut to about [precision] bits. *)
Definition cut (b : Z * Z * Z) : Z * Z * Z :=
  let '(lo, hi, e) := b in
  let t := Z.log2 hi - precision in
  if 0 <? t then (Z.shiftr lo t, Z.shiftr hi t + 1, e + t) else b.

Definition square (b : Z * Z * Z) : Z * Z * Z :=
  let '(lo, hi, e) := b in cut (lo * lo, hi * hi, 2 * e).

Definition times (m : Z) (b : Z * Z * Z) : Z * Z * Z :=
  let '(lo, hi, e) := b in cut (lo * m, hi * m, e).

(** Bounds of [m ^ n], by squaring. *)
Fixpoint power_bounds (m : Z) (n : positive) : Z * Z * Z :=
  match n with
  | xH => (m, m, 0)
  | xO n' => square (power_bounds m n')
  | xI n' => times m (square (power_bounds m n'))
  end.

(** The 53 leading bits of [m ^ n] and the exponent of the last of them,
    when the bounds determine them and [m ^ n] is odd and longer. *)
Definition leading_bits (m : Z) (n : positive) : option (Z * Z) :=
  let '(lo, hi, e) := power_bounds m n in
  let g := Z.log2 lo in
  let t := g - 52 in
  let d := Z.shiftr lo t in
  if (Z.odd m && (0 <? lo) && (Z.log2 hi =? g) && (0 <? t)
      && (Z.shiftr hi t =? d) && (66 <=? g + e))%bool
  then Some (d, e + t) else None.

Definition bounded (x : Z) (b : Z * Z * Z) : Prop :=
  let '(lo, hi, e) := b in 0 <= e /\ 0 <= lo /\ lo * 2 ^ e <= x <= hi * 2 ^ e.

Definition around (b y : float) : option (float * float) :=
  if (b =? 1)%float then Pow.around b y
  else
    match Pow.parts b y with
    | Some (m, e, Zpos n) =>
        match leading_bits (Zpos m) n with
        | Some (d, s) => Pow.floats_around (d, e * Zpos n + s, true)
        | None => Pow.around b y
        end
    | _ => Pow.around b y
    end.

End FastPow.

(** *** Binary64: evaluating the program under any faithful [Math.pow]

    The program asks [Math.pow] at finitely many points.  At each of them a
    faithful [Math.pow] answers one of two floats; the program is run for
    every combination of answers, with [Math.pow] a finite table, and its
    result is determined when all runs agree. *)

Module Det.

Definition key_eqb (b y b' y' : float) : bool :=
  (Leibniz.eqb b b' && Leibniz.eqb y y')%bool.

Fixpoint table_pow (tbl : list (float * float * float)) (b y : float) : float :=
  match tbl with
  | [] => nan
  | (b', y', v) :: rest => if key_eqb b y b' y' then v else table_pow rest b y
  end.

Definition tabulate (pow : float -> float -> float) (keys : list (float * float))
  : list (float * float * float) :=
  map (fun '(b, y) => (b, y, pow b y)) keys.

Definition choices (b y : float) : list float :=
  match FastPow.around b y with
  | Some (d, u) => [d; u]
  | None => []
  end.

(** The one value of a list whose members are all equal. *)
Definition the_value {A : Type} (eqb : A -> A -> bool) (l : list A) : option A :=
  match l with
  | v :: rest => if forallb (eqb v) rest then Some v else None
  | [] => None
  end.

Definition state_eqb (s t : Bisection float) : bool :=
  (Leibniz.eqb (high s) (high t) && Leibniz.eqb (low s) (low t)
   && Leibniz.eqb (guess s) (guess t)
   && Leibniz.eqb (previousGuess s) (previousGuess t))%bool.

Definition option_eqb {A : Type} (eqb : A -> A -> bool) (a b : option A) : bool :=
  match a, b with
  | Some x, Some y => eqb x y
  | None, None => true
  | _, _ => false
  end.

Definition ten : float := B64.of_decimal 10 0.
Definition twelve : float := B64.of_decimal 12 0.

Section Amortization.

Variables loanAmount rate period : float.

Definition amortization_base : float := (B64.of_decimal 1 0 + rate / twelve)%float.
Definition amortization_months : float := (period * twelve)%float.

Definition amortization_values : list float :=
  flat_map (fun t =>
    map (fun p =>
      @_amortization float
        (Binary64 (table_pow [(ten, B64.of_decimal 2 0, t);
                              (amortization_base, amortization_months, p)]))
        loanAmount rate period)
      (choices amortization_base amortization_months))
    (choices ten (B64.of_decimal 2 0)).

Definition amortization_det : option float :=
  the_value Leibniz.eqb amortization_values.

End Amortization.

Section Solver.

Variables loanAmount monthlyPayment period : float.

Definition solver_guess (st : Bisection float) : float :=
  ((high st - low st) / B64.of_decimal 2 0 + low st)%float.
Definition solver_n : float := (period * twelve)%float.
Definition solver_n1 : float := (period * twelve + B64.of_decimal 1 0)%float.

Definition step_values (st : Bisection float) : list (Bisection float) :=
  flat_map (fun p =>
    map (fun p1 =>
      @effectiveInterest_body float
        (Binary64 (table_pow [(solver_guess st, solver_n, p);
                              (solver_guess st, solver_n1, p1)]))
        loanAmount monthlyPayment period twelve st)
      (choices (solver_guess st) solver_n1))
    (choices (solver_guess st) solver_n).

Definition step_det (st : Bisection float) : option (Bisection float) :=
  the_value state_eqb (step_values st).

Fixpoint loop_det (fuel : nat) (guessLimit : float) (st : Bisection float)
  : option (Bisection float) :=
  match fuel with
  | O => None
  | S fuel' =>
      match step_det st with
      | Some st' =>
          if (guessLimit <? abs (guess st' - previousGuess st'))%float
          then loop_det fuel' guessLimit st'
          else Some st'
      | None => None
      end
  end.

Definition solver_init : Bisection float :=
  {| high := B64.of_decimal 2 0; low := B64.of_decimal 1 0;
     guess := B64.of_decimal 0 0; previousGuess := B64.of_decimal 0 0 |}.

Definition solver_exponent : float :=
  (- B64.of_decimal 1 0 * B64.of_decimal 5 0)%float.

Definition loop_values (fuel : nat) : list (option (Bisection float)) :=
  map (fun guessLimit => loop_det fuel guessLimit solver_init)
    (choices ten solver_exponent).

Definition return_values (st : Bisection float) : list float :=
  flat_map (fun t =>
    map (fun p =>
      @roundDecimals float
        (Binary64 (table_pow [(ten, B64.of_decimal 4 0, t)]))
        (p - B64.of_decimal 1 0)%float (Some (B64.of_decimal 4 0)))
      (choices (guess st) twelve))
    (choices ten (B64.of_decimal 4 0)).

Definition effectiveInterest_det (fuel : nat) : option float :=
  match the_value (option_eqb state_eqb) (loop_values fuel) with
  | Some (Some st) => the_value Leibniz.eqb (return_values st)
  | _ => None
  end.

End Solver.

End Det.

(** *** Binary64: every run of the bisection loop

    Whatever the loan, a round of the loop moves one end of the bracket to
    the midpoint: the comparison of [prov] with [loanAmount] only chooses
    which end.  [tree_ok k] follows both choices at every round and checks
    that each path makes exactly [k] rounds, the bracket halving from
    width [w] at each. *)

Module Tree.

Definition branch (lower_high : bool) (st : Bisection float) : Bisection float :=
  let g := ((high st - low st) / 2 + low st)%float in
  if lower_high
  then {| high := g; low := low st; guess := g; previousGuess := guess st |}
  else {| high := high st; low := g; guess := g; previousGuess := guess st |}.

Definition continues (guessLimit : float) (st : Bisection float) : bool :=
  (guessLimit <? abs (guess st - previousGuess st))%float.

Definition width (st : Bisection float) : float := (high st - low st)%float.

Fixpoint tree_ok (k : nat) (guessLimit w : float) (st : Bisection float) : bool :=
  (Leibniz.eqb (width st) w &&
   match k with
   | O => true
   | S k' =>
       forallb (fun b =>
         let st' := branch b st in
         Bool.eqb (continues guessLimit st') (match k' with O => false | _ => true end)
         && tree_ok k' guessLimit (w / 2)%float st') [true; false]
   end)%bool.

Definition init : Bisection float :=
  {| high := 2%float; low := 1%float; guess := 0%float; previousGuess := 0%float |}.

(** [w] halved [k] times. *)
Definition halved (k : nat) (w : float) : float :=
  Nat.iter k (fun x => (x / 2)%float) w.

End Tree.

(** ** Lemmas that hold over every instance *)

Section Generic.

Context {num : Type} {ops : NumberOps num}.
Local Open Scope js_scope.

Lemma do_while_more_fuel {S : Type} (body : S -> S) (cond : S -> bool) :
  forall fuel st r, do_while fuel body cond st = Some r ->
  forall fuel', (fuel <= fuel')%nat -> do_while fuel' body cond st = Some r.
Proof.
  induction fuel as [|fuel IH]; intros st r Hrun fuel' Hle; [discriminate|].
  destruct fuel' as [|fuel']; [lia|].
  simpl in *. destruct (cond (body st)); [|exact Hrun].
  apply IH with (1 := Hrun). lia.
Qed.

Lemma array_from_loop_length {S A : Type} (mapFn : S -> Z -> A * S) :
  forall n i s, List.length (array_from_loop n i mapFn s) = n.
Proof.
  induction n as [|n IH]; intros i s; simpl; [reflexivity|].
  destruct (mapFn s i) as [a s']. simpl. now rewrite IH.
Qed.

Lemma fold_sum_skipping (fees : list (JSValue num)) :
  forall acc,
    fold_left (fun acc e => acc + parseFloat e) (filter isNumber fees) acc
    = sum_skipping acc fees.
Proof.
  induction fees as [|e rest IH]; intros acc; simpl; [reflexivity|].
  destruct (isNumber e); simpl; apply IH.
Qed.

Lemma sumArray_sum_skipping (fees : list (JSValue num)) :
  sumArray fees = sum_skipping (int 0) fees.
Proof. apply fold_sum_skipping. Qed.

Lemma sum_skipping_app (l1 l2 : list (JSValue num)) :
  forall acc, sum_skipping acc (l1 ++ l2) = sum_skipping (sum_skipping acc l1) l2.
Proof.
  induction l1 as [|e l1 IH]; intros acc; simpl; [reflexivity|].
  destruct (isNumber e); apply IH.
Qed.

Lemma sumArray_skips (l1 l2 : list (JSValue num)) (v : JSValue num) :
  isNumber v = false -> sumArray (l1 ++ v :: l2) = sumArray (l1 ++ l2).
Proof.
  intros Hv. rewrite !sumArray_sum_skipping, !sum_skipping_app. simpl.
  now rewrite Hv.
Qed.

Lemma sumArray_adds (l : list (JSValue num)) (v : JSValue num) :
  isNumber v = true -> sumArray (l ++ [v]) = sumArray l + parseFloat v.
Proof.
  intros Hv. rewrite !sumArray_sum_skipping, sum_skipping_app. simpl.
  now rewrite Hv.
Qed.

Lemma paymentPlanFromToday_unfold date loanAmount rate period principalFees periodFees :
  paymentPlanFromToday date loanAmount rate period principalFees periodFees
  = Array_from (period * int 12)
      (plan_step date (_amortization loanAmount rate period) (rate / int 12)
         (with_default principalFees []) (with_default periodFees []))
      loanAmount.
Proof. reflexivity. Qed.

Lemma plan_recurrence date base monthlyRate principalFees periodFees :
  forall n i remainder,
    remainder_recurrence remainder
      (array_from_loop n i
         (plan_step date base monthlyRate principalFees periodFees) remainder).
Proof.
  induction n as [|n IH]; intros i remainder; simpl; [exact I|].
  split; [reflexivity|apply IH].
Qed.

End Generic.

(** ** Binary64: the leading bits of a power *)

Module FastPowFacts.
Import FastPow.

Local Open Scope Z_scope.

Lemma cut_bounded x b : bounded x b -> bounded x (cut b).
Proof.
  destruct b as [[lo hi] e]. unfold cut, bounded.
  intros (He & Hlo & Hx1 & Hx2).
  destruct (0 <? Z.log2 hi - precision) eqn:Ht; [|auto].
  apply Z.ltb_lt in Ht. set (t := Z.log2 hi - precision) in *.
  rewrite !Z.shiftr_div_pow2 by lia.
  assert (Hp : 0 < 2 ^ t) by (apply Z.pow_pos_nonneg; lia).
  assert (He' : 0 < 2 ^ e) by (apply Z.pow_pos_nonneg; lia).
  rewrite Z.pow_add_r by lia.
  pose proof (Z.mul_div_le lo (2 ^ t) Hp).
  pose proof (Z.mul_succ_div_gt hi (2 ^ t) Hp).
  split; [lia|]. split; [apply Z.div_pos; lia|]. split; nia.
Qed.

Lemma square_bounded x b : bounded x b -> bounded (x * x) (square b).
Proof.
  destruct b as [[lo hi] e]. unfold square. intros (He & Hlo & Hx1 & Hx2).
  apply cut_bounded. unfold bounded.
  assert (He' : 0 < 2 ^ e) by (apply Z.pow_pos_nonneg; lia).
  replace (2 ^ (2 * e)) with (2 ^ e * 2 ^ e) by (rewrite <- Z.pow_add_r by lia; f_equal; lia).
  split; [lia|]. split; [nia|]. split; nia.
Qed.

Lemma times_bounded m x b : 0 < m -> bounded x b -> bounded (x * m) (times m b).
Proof.
  destruct b as [[lo hi] e]. unfold times. intros Hm (He & Hlo & Hx1 & Hx2).
  apply cut_bounded. unfold bounded. split; [lia|]. split; nia.
Qed.

Lemma power_bounds_bounded m n : 0 < m -> bounded (m ^ Zpos n) (power_bounds m n).
Proof.
  intros Hm. induction n as [n IH|n IH|]; simpl power_bounds.
  - replace (m ^ Zpos n~1) with (m ^ Zpos n * m ^ Zpos n * m)
      by (rewrite Pos2Z.inj_xI, Z.pow_add_r, Z.pow_1_r, Z.pow_twice_r by lia; reflexivity).
    now apply times_bounded, square_bounded.
  - replace (m ^ Zpos n~0) with (m ^ Zpos n * m ^ Zpos n)
      by (rewrite Pos2Z.inj_xO, Z.pow_twice_r; reflexivity).
    now apply square_bounded.
  - rewrite Z.pow_1_r. unfold bounded. simpl. lia.
Qed.

Lemma leading_bits_spec m n d s :
  0 < m -> leading_bits m n = Some (d, s) ->
  let x := m ^ Zpos n in
  Z.log2 x = 52 + s /\ 66 <= Z.log2 x /\ Z.shiftr x s = d /\ Z.shiftl d s <> x.
Proof.
  intros Hm. unfold leading_bits.
  pose proof (power_bounds_bounded m n Hm) as Hb.
  destruct (power_bounds m n) as [[lo hi] e]. destruct Hb as (He & _ & Hx1 & Hx2).
  destruct (_ && _)%bool eqn:Hc; [|discriminate].
  repeat (apply andb_true_iff in Hc as [Hc ?]).
  intros [= <- <-]. set (x := m ^ Z.pos n) in *.
  set (g := Z.log2 lo) in *. set (t := g - 52) in *.
  repeat match goal with
         | H : (_ <? _) = true |- _ => apply Z.ltb_lt in H
         | H : (_ <=? _) = true |- _ => apply Z.leb_le in H
         | H : (_ =? _) = true |- _ => apply Z.eqb_eq in H
         end.
  assert (He' : 0 < 2 ^ e) by (apply Z.pow_pos_nonneg; lia).
  assert (Ht' : 0 < 2 ^ t) by (apply Z.pow_pos_nonneg; lia).
  assert (Hg : 0 <= g) by apply Z.log2_nonneg.
  assert (Hlo : 2 ^ g <= lo < 2 ^ Z.succ g) by (apply Z.log2_spec; lia).
  assert (Hhi : 2 ^ g <= hi < 2 ^ Z.succ g).
  { match goal with H : Z.log2 hi = g |- _ => rewrite <- H end.
    apply Z.log2_spec. lia. }
  assert (Hlog : Z.log2 x = g + e).
  { apply Z.log2_unique; [lia|]. rewrite Z.pow_add_r by lia.
    replace (2 ^ Z.succ (g + e)) with (2 ^ Z.succ g * 2 ^ e)
      by (rewrite <- Z.pow_add_r by lia; f_equal; lia).
    split; nia. }
  assert (Hd : x / 2 ^ (e + t) = Z.shiftr lo t).
  { rewrite Z.shiftr_div_pow2 by lia.
    match goal with H : Z.shiftr hi t = _ |- _ =>
      rewrite !Z.shiftr_div_pow2 in H by lia; rename H into Heq end.
    pose proof (Z.mul_div_le lo (2 ^ t) Ht').
    pose proof (Z.mul_succ_div_gt hi (2 ^ t) Ht').
    rewrite Heq in *. set (d := lo / 2 ^ t) in *.
    symmetry. apply Z.div_unique with (r := x - d * 2 ^ (e + t)); [|lia].
    left. rewrite Z.pow_add_r by lia. split; nia. }
  split; [lia|]. split; [lia|]. split.
  - rewrite Z.shiftr_div_pow2 by lia. exact Hd.
  - rewrite Z.shiftl_mul_pow2 by lia. intros Heven.
    assert (Hodd : Z.odd x = true).
    { unfold x. rewrite Z.odd_pow by lia. assumption. }
    rewrite <- Heven in Hodd.
    replace (e + t) with (Z.succ (e + t - 1)) in Hodd by lia.
    rewrite Z.pow_succ_r in Hodd by lia.
    rewrite Z.mul_assoc, Z.mul_comm, Z.mul_assoc in Hodd.
    rewrite Z.odd_mul in Hodd.
    rewrite Z.odd_mul in Hodd. simpl in Hodd.
    rewrite andb_false_r in Hodd. discriminate.
Qed.

Lemma bracket_leading_bits m n d s E :
  leading_bits (Zpos m) n = Some (d, s) ->
  Pow.bracket (Z.to_pos (Zpos m ^ Zpos n)) 1 E = (d, E + s, true).
Proof.
  intros Hl. apply leading_bits_spec in Hl; [|lia].
  cbv zeta in Hl. destruct Hl as (Hlog & Hlong & Hd & Hodd).
  assert (Hx : 0 < Zpos m ^ Zpos n) by (apply Z.pow_pos_nonneg; lia).
  unfold Pow.bracket. rewrite Z2Pos.id by exact Hx.
  set (x := Zpos m ^ Zpos n) in *.
  change (Z.log2 1) with 0. rewrite Z.max_l by lia.
  rewrite Z.pow_0_r, Z.mul_1_r.
  pose proof (Z_div_mod x 1 eq_refl) as Hdiv.
  destruct (Z.div_eucl x 1) as [a r]. destruct Hdiv as [Ha Hr].
  assert (a = x) by lia. assert (r = 0) by lia. subst a r.
  replace (Z.log2 x - 52) with s by lia. rewrite Hd.
  apply Z.eqb_neq in Hodd. rewrite Hodd. simpl.
  f_equal. f_equal. lia.
Qed.

Lemma around_eq (b y : float) : around b y = Pow.around b y.
Proof.
  unfold around. destruct (b =? 1)%float eqn:Hb; [reflexivity|].
  destruct (Pow.parts b y) as [[[m e] [|n|n]]|] eqn:Hp; try reflexivity.
  destruct (leading_bits (Zpos m) n) as [[d s]|] eqn:Hl; [|reflexivity].
  unfold Pow.around, Pow.exact. rewrite Hb, Hp.
  change (0 <=? Zpos n) with true. cbv iota.
  now rewrite (bracket_leading_bits _ _ _ _ _ Hl).
Qed.

End FastPowFacts.

(** ** Binary64: soundness of the evaluation under a faithful [Math.pow] *)

Module DetFacts.
Import Det.

Lemma leibniz_eqb_eq (x y : float) : Leibniz.eqb x y = true -> x = y.
Proof. apply Leibniz.eqb_spec. Qed.

Lemma leibniz_eqb_refl (x : float) : Leibniz.eqb x x = true.
Proof. now apply Leibniz.eqb_spec. Qed.

Lemma key_eqb_eq b y b' y' : key_eqb b y b' y' = true -> b = b' /\ y = y'.
Proof.
  unfold key_eqb. intros Hk. apply andb_true_iff in Hk as [Hb Hy].
  split; now apply leibniz_eqb_eq.
Qed.

Lemma key_eqb_refl b y : key_eqb b y b y = true.
Proof. unfold key_eqb. now rewrite !leibniz_eqb_refl. Qed.

Lemma table_pow_tabulate pow keys b y :
  In (b, y) keys -> table_pow (tabulate pow keys) b y = pow b y.
Proof.
  induction keys as [|[b' y'] keys IH]; intros Hin; [destruct Hin|].
  simpl. destruct (key_eqb b y b' y') eqn:Hk.
  - apply key_eqb_eq in Hk as [-> ->]. reflexivity.
  - destruct Hin as [Heq|Hin]; [|now apply IH].
    injection Heq as -> ->. now rewrite key_eqb_refl in Hk.
Qed.

Lemma choices_faithful pow b y :
  Pow.faithful pow -> choices b y <> [] -> In (pow b y) (choices b y).
Proof.
  intros Hf Hne. specialize (Hf b y). unfold choices, Pow.dom, Pow.down, Pow.up in *.
  rewrite FastPowFacts.around_eq in *.
  destruct (Pow.around b y) as [[d u]|]; [|now elim Hne].
  destruct (Hf eq_refl) as [-> | ->]; simpl; auto.
Qed.

Lemma the_value_in {A : Type} (eqb : A -> A -> bool) (l : list A) (v x : A) :
  (forall a b, eqb a b = true -> a = b) ->
  the_value eqb l = Some v -> In x l -> x = v.
Proof.
  intros Heqb. destruct l as [|a rest]; [discriminate|]. simpl.
  destruct (forallb (eqb a) rest) eqn:Hall; [|discriminate].
  intros [= <-] [<- | Hin]; [reflexivity|].
  rewrite forallb_forall in Hall. symmetry. now apply Heqb, Hall.
Qed.

Lemma state_eqb_eq (s t : Bisection float) : state_eqb s t = true -> s = t.
Proof.
  destruct s, t. unfold state_eqb. simpl. intros Hs.
  repeat (apply andb_true_iff in Hs as [Hs ?]).
  f_equal; now apply leibniz_eqb_eq.
Qed.

Lemma option_eqb_eq {A : Type} (eqb : A -> A -> bool) :
  (forall a b, eqb a b = true -> a = b) ->
  forall a b, option_eqb eqb a b = true -> a = b.
Proof.
  intros Heqb [a|] [b|]; simpl; intros Hab; try discriminate; [|reflexivity].
  f_equal. now apply Heqb.
Qed.

Lemma in_flat_map_map {A B C : Type} (f : A -> B -> C) (la : list A) (lb : A -> list B) a b :
  In a la -> In b (lb a) -> In (f a b) (flat_map (fun a => map (f a) (lb a)) la).
Proof.
  intros Ha Hb. apply in_flat_map. exists a. split; [exact Ha|].
  now apply in_map.
Qed.

Lemma flat_map_nonempty {A B : Type} (f : A -> list B) (l : list A) :
  flat_map f l <> [] -> l <> [].
Proof. now destruct l. Qed.

Lemma flat_map_map_nonempty {A B C : Type} (f : A -> B -> C) (la : list A) (lb : A -> list B) :
  flat_map (fun a => map (f a) (lb a)) la <> [] ->
  la <> [] /\ exists a, In a la /\ lb a <> [].
Proof.
  induction la as [|a la IH]; simpl; intros Hne; [now elim Hne|].
  split; [discriminate|].
  destruct (lb a) eqn:Hlb.
  - destruct (IH Hne) as [_ [a' [Ha' Hb']]]. exists a'. auto.
  - exists a. split; [now left|]. now rewrite Hlb.
Qed.

Lemma the_value_nonempty {A : Type} (eqb : A -> A -> bool) (l : list A) (v : A) :
  the_value eqb l = Some v -> l <> [].
Proof. now destruct l. Qed.

Lemma amortization_tabulated pow loanAmount rate period :
  @_amortization float
    (Binary64 (table_pow (tabulate pow
       [(ten, B64.of_decimal 2 0);
        (amortization_base rate, amortization_months period)])))
    loanAmount rate period
  = @_amortization float (Binary64 pow) loanAmount rate period.
Proof.
  unfold _amortization, roundDecimals, int, with_default.
  cbv [of_decimal add sub mul div Math_pow Math_round ToBoolean Binary64].
  rewrite !table_pow_tabulate; [reflexivity| |]; simpl; auto.
Qed.

Lemma amortization_det_sound pow loanAmount rate period v :
  Pow.faithful pow ->
  amortization_det loanAmount rate period = Some v ->
  @_amortization float (Binary64 pow) loanAmount rate period = v.
Proof.
  intros Hf Hdet. unfold amortization_det in Hdet.
  apply (the_value_in _ _ _ _ leibniz_eqb_eq Hdet).
  apply the_value_nonempty in Hdet.
  apply flat_map_map_nonempty in Hdet as [H1 [_ [_ H2]]].
  rewrite <- amortization_tabulated.
  apply (in_flat_map_map
           (fun t p => @_amortization float
              (Binary64 (table_pow [(ten, B64.of_decimal 2 0, t);
                                    (amortization_base rate, amortization_months period, p)]))
              loanAmount rate period)
           (choices ten (B64.of_decimal 2 0))
           (fun _ => choices (amortization_base rate) (amortization_months period))
           (pow ten (B64.of_decimal 2 0))
           (pow (amortization_base rate) (amortization_months period)));
    now apply choices_faithful.
Qed.

Section SolverSound.

Variable pow : float -> float -> float.
Hypothesis pow_faithful : Pow.faithful pow.
Variables loanAmount monthlyPayment period : float.

Lemma body_tabulated st :
  @effectiveInterest_body float
    (Binary64 (table_pow (tabulate pow
       [(solver_guess st, solver_n period); (solver_guess st, solver_n1 period)])))
    loanAmount monthlyPayment period twelve st
  = @effectiveInterest_body float (Binary64 pow) loanAmount monthlyPayment period twelve st.
Proof.
  unfold effectiveInterest_body, int.
  cbv [of_decimal add sub mul div lt Math_pow Binary64].
  rewrite !table_pow_tabulate; [reflexivity| |]; simpl; auto.
Qed.

Lemma step_det_sound st st' :
  step_det loanAmount monthlyPayment period st = Some st' ->
  @effectiveInterest_body float (Binary64 pow) loanAmount monthlyPayment period twelve st
  = st'.
Proof.
  intros Hdet. unfold step_det in Hdet.
  apply (the_value_in _ _ _ _ state_eqb_eq Hdet).
  apply the_value_nonempty in Hdet.
  apply flat_map_map_nonempty in Hdet as [H1 [_ [_ H2]]].
  rewrite <- body_tabulated.
  apply (in_flat_map_map
           (fun p p1 => @effectiveInterest_body float
              (Binary64 (table_pow [(solver_guess st, solver_n period, p);
                                    (solver_guess st, solver_n1 period, p1)]))
              loanAmount monthlyPayment period twelve st)
           (choices (solver_guess st) (solver_n period))
           (fun _ => choices (solver_guess st) (solver_n1 period))
           (pow (solver_guess st) (solver_n period))
           (pow (solver_guess st) (solver_n1 period)));
    now apply choices_faithful.
Qed.

Lemma loop_det_sound guessLimit :
  forall fuel st r,
    loop_det loanAmount monthlyPayment period fuel guessLimit st = Some r ->
    do_while fuel
      (@effectiveInterest_body float (Binary64 pow) loanAmount monthlyPayment period twelve)
      (@effectiveInterest_cond float (Binary64 pow) guessLimit) st
    = Some r.
Proof.
  induction fuel as [|fuel IH]; intros st r Hdet; [discriminate|].
  simpl in *.
  destruct (step_det loanAmount monthlyPayment period st) as [st'|] eqn:Hstep;
    [|discriminate].
  rewrite (step_det_sound _ _ Hstep).
  change (@effectiveInterest_cond float (Binary64 pow) guessLimit st')
    with (guessLimit <? abs (guess st' - previousGuess st'))%float.
  destruct (guessLimit <? abs (guess st' - previousGuess st'))%float;
    [now apply IH|exact Hdet].
Qed.

Lemma roundDecimals_tabulated x decimals :
  @roundDecimals float (Binary64 (table_pow (tabulate pow [(ten, decimals)])))
    x (Some decimals)
  = @roundDecimals float (Binary64 pow) x (Some decimals).
Proof.
  unfold roundDecimals, int, with_default.
  cbv [of_decimal add sub mul div Math_pow Math_round ToBoolean Binary64].
  rewrite !table_pow_tabulate; [reflexivity|]; simpl; auto.
Qed.

Lemma effectiveInterest_unfold fuel :
  @effectiveInterest float (Binary64 pow) fuel loanAmount monthlyPayment period
  = match do_while fuel
            (@effectiveInterest_body float (Binary64 pow)
               loanAmount monthlyPayment period twelve)
            (@effectiveInterest_cond float (Binary64 pow) (pow ten solver_exponent))
            solver_init with
    | Some st =>
        Some (@roundDecimals float (Binary64 pow)
                (pow (guess st) twelve - B64.of_decimal 1 0)%float
                (Some (B64.of_decimal 4 0)))
    | None => None
    end.
Proof. reflexivity. Qed.

Lemma effectiveInterest_det_sound fuel v :
  effectiveInterest_det loanAmount monthlyPayment period fuel = Some v ->
  @effectiveInterest float (Binary64 pow) fuel loanAmount monthlyPayment period = Some v.
Proof.
  unfold effectiveInterest_det. intros Hdet.
  remember (the_value (option_eqb state_eqb)
              (loop_values loanAmount monthlyPayment period fuel)) as lv eqn:Hloop.
  symmetry in Hloop. destruct lv as [[st|]|]; [|discriminate Hdet|discriminate Hdet].
  rewrite effectiveInterest_unfold.
  assert (Hrun : loop_det loanAmount monthlyPayment period fuel
                   (pow ten solver_exponent) solver_init = Some st).
  { apply (the_value_in _ _ _ _ (option_eqb_eq _ state_eqb_eq) Hloop).
    apply the_value_nonempty in Hloop. unfold loop_values in *.
    apply (in_map (fun guessLimit =>
                     loop_det loanAmount monthlyPayment period fuel guessLimit solver_init)).
    apply choices_faithful; [exact pow_faithful|].
    intros Hnil. now rewrite Hnil in Hloop. }
  rewrite (loop_det_sound _ _ _ _ Hrun). f_equal.
  apply (the_value_in _ _ _ _ leibniz_eqb_eq Hdet).
  apply the_value_nonempty in Hdet.
  apply flat_map_map_nonempty in Hdet as [H1 [_ [_ H2]]].
  rewrite <- roundDecimals_tabulated.
  apply (in_flat_map_map
           (fun t p => @roundDecimals float
              (Binary64 (table_pow [(ten, B64.of_decimal 4 0, t)]))
              (p - B64.of_decimal 1 0)%float (Some (B64.of_decimal 4 0)))
           (choices ten (B64.of_decimal 4 0))
           (fun _ => choices (guess st) twelve)
           (pow ten (B64.of_decimal 4 0))
           (pow (guess st) twelve));
    now apply choices_faithful.
Qed.

End SolverSound.

End DetFacts.

(** ** Binary64: soundness of the tree of runs *)

Module TreeFacts.
Import Tree.

Section Sound.

Variable body : Bisection float -> Bisection float.
Hypothesis body_branches : forall st, exists b, body st = branch b st.
Variable guessLimit : float.

Lemma tree_ok_width k w st : tree_ok k guessLimit w st = true -> width st = w.
Proof.
  destruct k; simpl; intros Hok; apply andb_true_iff in Hok as [Hw _];
    now apply DetFacts.leibniz_eqb_eq.
Qed.

Lemma tree_ok_step k w st :
  tree_ok (S k) guessLimit w st = true ->
  continues guessLimit (body st) = match k with O => false | _ => true end
  /\ tree_ok k guessLimit (w / 2)%float (body st) = true.
Proof.
  simpl. intros Hok. apply andb_true_iff in Hok as [_ Hok].
  apply andb_true_iff in Hok as [Hhigh Hlow].
  apply andb_true_iff in Hlow as [Hlow _].
  destruct (body_branches st) as [b ->].
  assert (Hb : (Bool.eqb (continues guessLimit (branch b st))
                         (match k with O => false | _ => true end)
                && tree_ok k guessLimit (w / 2)%float (branch b st))%bool = true)
    by (destruct b; assumption).
  apply andb_true_iff in Hb as [Hc Ht]. apply eqb_prop in Hc. auto.
Qed.

Lemma tree_ok_runs :
  forall k w st, tree_ok (S k) guessLimit w st = true ->
  do_while (S k) body (continues guessLimit) st = Some (Nat.iter (S k) body st)
  /\ (forall fuel, (fuel <= k)%nat -> do_while fuel body (continues guessLimit) st = None).
Proof.
  induction k as [|k IH]; intros w st Hok;
    destruct (tree_ok_step _ _ _ Hok) as [Hc Ht].
  - split.
    + simpl. now rewrite Hc.
    + intros fuel Hle. now replace fuel with 0%nat by lia.
  - destruct (IH _ _ Ht) as [Hrun Hnone]. split.
    + change (do_while (S (S k)) body (continues guessLimit) st)
        with (if continues guessLimit (body st)
              then do_while (S k) body (continues guessLimit) (body st)
              else Some (body st)).
      rewrite Hc, Hrun. f_equal. now rewrite <- !Nat.iter_succ_r.
    + intros [|fuel] Hle; [reflexivity|].
      simpl. rewrite Hc. apply Hnone. lia.
Qed.

Lemma tree_ok_halves :
  forall k w st, tree_ok k guessLimit w st = true ->
  forall j, (j <= k)%nat -> width (Nat.iter j body st) = halved j w.
Proof.
  induction k as [|k IH]; intros w st Hok j Hj.
  - replace j with 0%nat by lia. simpl. now apply tree_ok_width in Hok.
  - destruct j as [|j]; [simpl; now apply tree_ok_width in Hok|].
    destruct (tree_ok_step _ _ _ Hok) as [_ Ht].
    rewrite Nat.iter_succ_r. unfold halved. rewrite Nat.iter_succ_r.
    apply (IH _ _ Ht). lia.
Qed.

End Sound.

Lemma body_branches pow loanAmount monthlyPayment period paymentsPerYear st :
  exists b,
    @effectiveInterest_body float (Binary64 pow)
      loanAmount monthlyPayment period paymentsPerYear st
    = branch b st.
Proof.
  unfold effectiveInterest_body, branch.
  match goal with |- context [if ?c then _ else _] => exists c; destruct c end;
    reflexivity.
Qed.

End TreeFacts.

(** ** Binary64: facts about floats and about a faithful [Math.pow] *)

Lemma down_faithful : Pow.faithful Pow.down.
Proof. intros b y _. now left. Qed.

Lemma mul_nan_r (x : float) : (x * nan)%float = nan.
Proof.
  apply Prim2SF_inj. rewrite mul_spec.
  change (Prim2SF nan) with S754_nan. now destruct (Prim2SF x).
Qed.

Lemma eqb_zero_cases (x : float) :
  (x =? 0)%float = true -> x = 0%float \/ x = (-0)%float.
Proof.
  rewrite FloatAxioms.eqb_spec. change (Prim2SF 0) with (S754_zero false).
  intros Heq. rewrite <- (SF2Prim_Prim2SF x).
  destruct (Prim2SF x) as [s|s| |s m e]; try destruct s; simpl in Heq;
    try discriminate Heq; simpl; auto.
Qed.

Lemma is_finite_not_zero (x : float) :
  (x =? 0)%float = false \/ is_finite x = true.
Proof.
  destruct (x =? 0)%float eqn:Hz; [right|now left].
  destruct (eqb_zero_cases _ Hz) as [-> | ->]; reflexivity.
Qed.

Section OnBinary64.

Variable pow : float -> float -> float.
Let ops : NumberOps float := Binary64 pow.
Local Existing Instance ops.
Hypothesis pow_faithful : Pow.faithful pow.

Lemma pow_exactly (b y v : float) :
  Pow.around b y = Some (v, v) -> pow b y = v.
Proof.
  intros Ha. specialize (pow_faithful b y). unfold Pow.dom, Pow.down, Pow.up in *.
  rewrite Ha in *. now destruct (pow_faithful eq_refl).
Qed.

Lemma pow_one (y : float) : is_finite y = true -> pow 1 y = 1%float.
Proof.
  intros Hy. apply pow_exactly. unfold Pow.around, Pow.exact.
  change (1 =? 1)%float with true. cbv iota. rewrite Hy. now vm_compute.
Qed.

(** A property of both floats around the power is one of [Math.pow]. *)
Lemma pow_satisfies (f : float -> bool) (b y : float) :
  Pow.dom b y = true ->
  forallb f (Det.choices b y) = true -> f (pow b y) = true.
Proof.
  intros Hdom Hall. rewrite forallb_forall in Hall. apply Hall.
  apply DetFacts.choices_faithful; [exact pow_faithful|].
  unfold Det.choices, Pow.dom in *. rewrite FastPowFacts.around_eq.
  now destruct (Pow.around b y) as [[d u]|].
Qed.

Lemma isNumber_number (x : float) : isNumber (JSNumber x) = is_finite x.
Proof.
  unfold isNumber, parseFloat.
  change (Number_isFinite (if (x =? 0)%float then 0%float else x) = is_finite x).
  destruct (is_finite_not_zero x) as [-> | Hf]; [reflexivity|].
  rewrite Hf. now destruct (x =? 0)%float.
Qed.

Lemma guessLimit_tree_ok :
  Tree.tree_ok 17 (Math_pow (int 10) (neg (int 1) * int 5)%js) 1 Tree.init = true.
Proof.
  change (Math_pow (int 10) (neg (int 1) * int 5)%js) with (pow 10%float (-5)%float).
  assert (Hdom : Pow.dom 10%float (-5)%float = true) by now vm_compute.
  destruct (pow_faithful _ _ Hdom) as [-> | ->]; now vm_compute.
Qed.

(** The three payments of the amortization test. *)
Lemma amortization_scenarios :
  (_amortization 20000 0.075 5 = 400.76
   /\ _amortization 25000 0.049 5 = 470.64
   /\ _amortization 2100000 0.0197 25 = 8870.3)%float.
Proof.
  repeat split;
    (apply DetFacts.amortization_det_sound; [exact pow_faithful|now vm_compute]).
Qed.

(** The rates of the effective interest test. *)
Lemma effectiveInterest_scenarios :
  (effectiveInterest 17 17000 518 5 = Some 0.3046
   /\ effectiveInterest 17 25000 561 5 = Some 0.1312
   /\ effectiveInterest 17 2100000 8870 25 = Some 0.0199)%float.
Proof.
  repeat split;
    (apply DetFacts.effectiveInterest_det_sound; [exact pow_faithful|now vm_compute]).
Qed.

(** The rate found from the payment the amortization formula gives. *)
Lemma round_trip_scenarios :
  (effectiveInterest 17 20000 (_amortization 20000 0.075 5) 5 = Some 0.0776
   /\ effectiveInterest 17 25000 (_amortization 25000 0.049 5) 5 = Some 0.0501
   /\ effectiveInterest 17 2100000 (_amortization 2100000 0.0197 25) 25
      = Some 0.0199)%float.
Proof.
  destruct amortization_scenarios as [-> [-> ->]].
  repeat split;
    (apply DetFacts.effectiveInterest_det_sound; [exact pow_faithful|now vm_compute]).
Qed.

End OnBinary64.

(** ** Exact: the statements that quantify over all loans *)

Module ExFacts.
Import Ex.
Local Open Scope R_scope.

Lemma is_zero_false r : r <> 0 -> is_zero r = false.
Proof. unfold is_zero. now destruct (Req_dec_T r 0). Qed.

Lemma is_zero_true r : r = 0 -> is_zero r = true.
Proof. unfold is_zero. now destruct (Req_dec_T r 0). Qed.

Lemma negative_true r : r < 0 -> negative r = true.
Proof. unfold negative. now destruct (Rlt_dec r 0). Qed.

Lemma negative_false r : 0 <= r -> negative r = false.
Proof. unfold negative. destruct (Rlt_dec r 0); [lra|reflexivity]. Qed.

Lemma lt_fin x y : lt (XFin x) (XFin y) = true <-> x < y.
Proof. simpl. destruct (Rlt_dec x y); split; auto; discriminate. Qed.

Lemma lt_fin_false x y : lt (XFin x) (XFin y) = false <-> y <= x.
Proof. simpl. destruct (Rlt_dec x y); split; auto; try discriminate; lra. Qed.

Lemma int_exact z : @int xreal Exact z = XFin (IZR z).
Proof. unfold int. simpl. unfold of_decimal. f_equal. simpl. ring. Qed.

Lemma div_fin x y : y <> 0 -> div (XFin x) (XFin y) = XFin (x / y).
Proof. intros Hy. simpl. now rewrite is_zero_false by exact Hy. Qed.

Lemma pow_fin x y : 0 < x -> y <> 0 -> pow (XFin x) (XFin y) = XFin (Rpower x y).
Proof.
  intros Hx Hy. simpl. rewrite is_zero_false by exact Hy.
  destruct (Rlt_dec 0 x); [reflexivity|contradiction].
Qed.

Lemma pow_ten (z : Z) :
  z <> 0%Z -> pow (XFin 10) (XFin (IZR z)) = XFin (powerRZ 10 z).
Proof.
  intros Hz. rewrite pow_fin; [|lra|now apply not_0_IZR].
  now rewrite powerRZ_Rpower by lra.
Qed.

Lemma round_fin x :
  exists k : Z, round (XFin x) = XFin (IZR k) /\ x - 1 / 2 < IZR k <= x + 1 / 2.
Proof.
  simpl. pose proof (Zfloor_bound x) as [Hlo Hhi].
  destruct (Rlt_dec (x - IZR (Zfloor x)) (1 / 2)).
  - exists (Zfloor x). split; [reflexivity|lra].
  - exists (Zfloor x + 1)%Z. split; [reflexivity|]. rewrite plus_IZR. lra.
Qed.

Lemma Rpower_gt_1 x y : 1 < x -> 0 < y -> 1 < Rpower x y.
Proof.
  intros Hx Hy. rewrite <- (Rpower_O x) by lra. now apply Rpower_lt.
Qed.

Lemma Rpower_neq_1 x y : 0 < x -> x <> 1 -> y <> 0 -> Rpower x y <> 1.
Proof.
  intros Hx Hx1 Hy Hp. unfold Rpower in Hp. rewrite <- exp_0 in Hp.
  apply exp_inv in Hp. apply Rmult_integral in Hp as [Hp|Hp]; [contradiction|].
  now apply (ln_neq_0 x).
Qed.

End ExFacts.

Section OnExact.
Import ExFacts.
Local Existing Instance Exact.
Local Open Scope R_scope.

Lemma amortization_exact (loanAmount rate period : R) :
  -12 < rate -> rate <> 0 -> period <> 0 ->
  exists y : R,
    _amortization (Ex.XFin loanAmount) (Ex.XFin rate) (Ex.XFin period) = Ex.XFin y
    /\ rounded_half_up 2 (amortization_formula loanAmount rate period) y.
Proof.
  intros Hbase Hrate Hperiod.
  unfold _amortization, roundDecimals, with_default. rewrite !int_exact.
  cbv [add sub mul div Math_pow Math_round ToBoolean Exact].
  rewrite div_fin by lra. cbn [Ex.add Ex.mul].
  assert (Hpow : Rpower (1 + rate / 12) (period * 12) <> 1)
    by (apply Rpower_neq_1; lra).
  rewrite pow_fin by lra. cbn [Ex.sub Ex.add Ex.mul Ex.neg].
  rewrite div_fin by lra. cbn [Ex.mul].
  assert (Htwo : Ex.ToBoolean (Ex.XFin 2) = true)
    by (simpl; rewrite is_zero_false by lra; reflexivity).
  rewrite Htwo.
  rewrite (pow_ten 2) by lia. change (powerRZ 10 2) with (10 ^ 2). cbn [Ex.mul].
  destruct (round_fin
              (loanAmount * (rate / 12 * Rpower (1 + rate / 12) (period * 12)
                             / (Rpower (1 + rate / 12) (period * 12) + - (1))) * 10 ^ 2))
    as [k [-> Hk]].
  rewrite div_fin by lra.
  eexists. split; [reflexivity|].
  exists k. split; [reflexivity|].
  unfold amortization_formula.
  replace (loanAmount * (rate / 12 * Rpower (1 + rate / 12) (period * 12))
           / (Rpower (1 + rate / 12) (period * 12) - 1))
    with (loanAmount * (rate / 12 * Rpower (1 + rate / 12) (period * 12)
                        / (Rpower (1 + rate / 12) (period * 12) + - (1))))
    by (field; lra).
  exact Hk.
Qed.

Lemma Rpower_base_1 y : Rpower 1 y = 1.
Proof. unfold Rpower. rewrite ln_1, Rmult_0_r. apply exp_0. Qed.

Lemma amortization_zero_rate (loanAmount period : R) :
  period * 12 <> 0 ->
  _amortization (Ex.XFin loanAmount) (Ex.XFin 0) (Ex.XFin period) = Ex.XNaN.
Proof.
  intros Hn.
  unfold _amortization, roundDecimals, with_default. rewrite !int_exact.
  cbv [add sub mul div Math_pow Math_round ToBoolean Exact].
  rewrite div_fin by lra. cbn [Ex.add Ex.mul].
  rewrite pow_fin by (try lra; exact Hn).
  replace (1 + 0 / 12) with 1 by lra. rewrite Rpower_base_1.
  cbn [Ex.sub Ex.add Ex.mul Ex.neg].
  unfold Ex.div at 2. rewrite !is_zero_true by lra. reflexivity.
Qed.

(** The payment is at least the first month's interest, rounded down. *)
Lemma amortization_covers_interest (loanAmount rate period y : R) :
  0 <= loanAmount -> 0 < rate -> 0 < period ->
  rounded_half_up 2 (amortization_formula loanAmount rate period) y ->
  IZR (Zfloor (loanAmount * (rate / 12))) <= y.
Proof.
  intros HL Hrate Hperiod [k [-> [Hlo _]]].
  set (r := rate / 12) in *. unfold amortization_formula in Hlo. fold r in Hlo.
  set (P := Rpower (1 + r) (period * 12)) in *.
  assert (Hr : 0 < r) by (unfold r; lra).
  assert (HP : 1 < P) by (apply Rpower_gt_1; lra).
  assert (Hv : loanAmount * r <= loanAmount * (r * P) / (P - 1)).
  { assert (Hpos : 0 <= loanAmount * r * / (P - 1)).
    { apply Rmult_le_pos; [nra|]. left. apply Rinv_0_lt_compat. lra. }
    replace (loanAmount * (r * P) / (P - 1))
      with (loanAmount * r + loanAmount * r * / (P - 1)) by (field; lra).
    lra. }
  pose proof (Zfloor_bound (loanAmount * r)) as [HF _].
  set (F := Zfloor (loanAmount * r)) in *.
  assert (HZ : (100 * F <= k)%Z).
  { apply Z.lt_succ_r. apply lt_IZR. rewrite succ_IZR, mult_IZR.
    simpl (10 ^ 2) in Hlo. lra. }
  apply IZR_le in HZ. rewrite mult_IZR in HZ. simpl (10 ^ 2). lra.
Qed.

Lemma plan_never_increases_NaN date monthlyRate principalFees periodFees :
  forall n i rem,
    remainder_never_increases rem
      (array_from_loop n i
         (plan_step date Ex.XNaN monthlyRate principalFees periodFees) rem).
Proof.
  induction n as [|n IH]; intros i rem; simpl; [exact I|].
  split; [|apply IH].
  cbv [lt sub Math_ceil Math_min Exact]. cbn [Ex.sub Ex.add Ex.min Ex.ceil Ex.neg].
  now destruct rem.
Qed.

Lemma plan_never_increases_covered date (base rate : R) principalFees periodFees
  (loanAmount : R) :
  0 <= rate -> IZR (Zfloor (loanAmount * rate)) <= base ->
  forall n i rem, -1 < rem <= loanAmount ->
    remainder_never_increases (Ex.XFin rem)
      (array_from_loop n i
         (plan_step date (Ex.XFin base) (Ex.XFin rate) principalFees periodFees)
         (Ex.XFin rem)).
Proof.
  intros Hrate Hbase. induction n as [|n IH]; intros i rem Hrem; simpl; [exact I|].
  cbv [lt sub mul Math_ceil Math_min Math_floor Exact].
  cbn [Ex.sub Ex.add Ex.mul Ex.floor Ex.neg].
  assert (Hint : IZR (Zfloor (rem * rate)) <= base).
  { apply Rle_trans with (2 := Hbase). apply IZR_le, Zfloor_le. nra. }
  set (a := base + - IZR (Zfloor (rem * rate))) in *.
  assert (Ha : 0 <= a) by (unfold a; lra).
  assert (Hstep : forall m, (m = rem \/ (m = a /\ a <= rem)) -> (rem < 0 -> m = rem) ->
            -1 < rem + - IZR (Zceil m) <= rem).
  { intros m Hm Hneg. pose proof (Zceil_bound m) as [Hc1 Hc2].
    assert (Hc0 : 0 <= IZR (Zceil m)).
    { apply IZR_le. apply Z.lt_succ_r, Z.lt_pred_lt_succ. apply lt_IZR. simpl.
      destruct Hm as [-> | [-> _]]; lra. }
    split; [|lra].
    destruct (Rlt_dec rem 0) as [Hn|Hn].
    - rewrite (Hneg Hn) in *.
      assert (Hz : (Zceil rem < 1)%Z) by (apply lt_IZR; lra).
      assert (Hz' : (0 <= Zceil rem)%Z) by (apply le_IZR; lra).
      replace (Zceil rem) with 0%Z by lia. lra.
    - destruct Hm as [-> | [-> Hle]]; lra. }
  unfold Ex.min. unfold Ex.lt at 1.
  destruct (Rlt_dec rem a) as [Hlt|Hge]; cbn [Ex.ceil Ex.neg Ex.add].
  - assert (H := Hstep rem (or_introl eq_refl) (fun _ => eq_refl)).
    split; [apply lt_fin_false; lra|]. apply IH. lra.
  - assert (H : -1 < rem + - IZR (Zceil a) <= rem).
    { apply Hstep; [right; lra|]. intros Hn. lra. }
    split; [apply lt_fin_false; lra|]. apply IH. lra.
Qed.

Lemma months_exact (period : R) :
  (Ex.XFin period * int 12)%js = Ex.XFin (period * 12).
Proof. rewrite int_exact. reflexivity. Qed.

Lemma monthlyRate_exact (rate : R) :
  (Ex.XFin rate / int 12)%js = Ex.XFin (rate / 12).
Proof. rewrite int_exact. cbv [div Exact]. now rewrite div_fin by lra. Qed.

Lemma schedule_never_increases_exact date (loanAmount rate period : R)
  principalFees periodFees :
  0 <= loanAmount -> 0 <= rate ->
  match paymentPlanFromToday date
          (Ex.XFin loanAmount) (Ex.XFin rate) (Ex.XFin period)
          principalFees periodFees with
  | Return plan => remainder_never_increases (Ex.XFin loanAmount) plan
  | ThrowRangeError => True
  end.
Proof.
  intros HL Hrate. rewrite paymentPlanFromToday_unfold. unfold Array_from.
  rewrite months_exact, monthlyRate_exact.
  destruct (ToLength (Ex.XFin (period * 12)) >? 2 ^ 32 - 1)%Z; [exact I|].
  destruct (Z.to_nat (ToLength (Ex.XFin (period * 12)))) as [|n] eqn:Hlen;
    [exact I|].
  assert (Hmonths : 1 <= period * 12).
  { assert (Hpos : (0 < ToLength (Ex.XFin (period * 12)))%Z) by lia.
    cbv [ToLength Exact Ex.ToLength] in Hpos.
    pose proof (Zfloor_bound (period * 12)) as [Hf _].
    apply Rle_trans with (2 := Hf). apply IZR_le. lia. }
  destruct (Req_dec_T rate 0) as [-> | Hnz].
  - rewrite amortization_zero_rate by lra. apply plan_never_increases_NaN.
  - destruct (amortization_exact loanAmount rate period) as [y [-> Hy]]; [lra..|].
    apply plan_never_increases_covered with (loanAmount := loanAmount); [lra| |lra].
    apply amortization_covers_interest with (4 := Hy); lra.
Qed.

(** *** The length of the schedule *)

Lemma schedule_length_exact date (loanAmount rate period : Ex.xreal)
  principalFees periodFees (months : R) :
  (period * int 12)%js = Ex.XFin months -> 0 <= months -> (Zfloor months <= 2 ^ 32 - 1)%Z ->
  exists plan,
    paymentPlanFromToday date loanAmount rate period principalFees periodFees
      = Return plan
    /\ Z.of_nat (List.length plan) = Zfloor months.
Proof.
  intros Hm Hpos Hmax. rewrite paymentPlanFromToday_unfold. unfold Array_from.
  rewrite Hm. cbv [ToLength Exact Ex.ToLength].
  assert (Hf : (0 <= Zfloor months)%Z) by (apply Zfloor_lub; simpl; lra).
  rewrite Z.min_r by lia. rewrite Z.max_r by lia.
  destruct (Zfloor months >? 2 ^ 32 - 1)%Z eqn:Hgt; [lia|].
  eexists. split; [reflexivity|]. rewrite array_from_loop_length. lia.
Qed.

(** *** Fees *)

Lemma add_zero_r (a : Ex.xreal) : Ex.add a (Ex.XFin 0) = a.
Proof. destruct a; simpl; try reflexivity. f_equal. lra. Qed.

Lemma sumArray_empty : sumArray (@nil (JSValue Ex.xreal)) = Ex.XFin 0.
Proof. unfold sumArray. simpl. apply int_exact. Qed.

Lemma parseFloat_number_exact (x : R) :
  parseFloat (JSNumber (Ex.XFin x)) = Ex.XFin x.
Proof.
  unfold parseFloat. rewrite int_exact. cbv [eq Exact]. unfold Ex.eq.
  now destruct (Req_dec_T x 0) as [-> | Hx].
Qed.

Lemma isNumber_number_exact (x : R) : isNumber (JSNumber (Ex.XFin x)) = true.
Proof. unfold isNumber. now rewrite parseFloat_number_exact. Qed.

Lemma sumArray_one (x : R) : sumArray [JSNumber (Ex.XFin x)] = Ex.XFin x.
Proof.
  unfold sumArray. cbn [filter]. rewrite isNumber_number_exact. cbn [fold_left].
  rewrite parseFloat_number_exact, int_exact. cbv [add Exact]. simpl.
  f_equal. lra.
Qed.

Lemma fee_equivalence_exact (loanAmount rate period : Ex.xreal) (x : R) :
  amortizationWithFees loanAmount rate period (Some [JSNumber (Ex.XFin x)]) None
  = amortizationWithFees (loanAmount + Ex.XFin x)%js rate period None None.
Proof.
  unfold amortizationWithFees, with_default.
  rewrite sumArray_one, sumArray_empty.
  cbv [add Exact]. now rewrite !add_zero_r.
Qed.

Lemma add_comm (a b : Ex.xreal) : Ex.add a b = Ex.add b a.
Proof.
  destruct a as [|s|x], b as [|t|y]; simpl; try reflexivity.
  - now destruct s, t.
  - f_equal. lra.
Qed.

Lemma guessLimit_exact :
  Math_pow (int 10) (neg (int 1) * int 5)%js = of_decimal 1 (-5).
Proof.
  rewrite !int_exact. cbv [Math_pow neg mul of_decimal Exact]. cbn [Ex.neg Ex.mul].
  replace (- (1) * 5) with (IZR (-5)) by lra.
  rewrite pow_ten by lia. unfold Ex.of_decimal. f_equal. lra.
Qed.

Lemma roundDecimals_4_exact (x : Ex.xreal) :
  roundDecimals x (Some (int 4))
  = (Math_round (x * of_decimal 1 4) / of_decimal 1 4)%js.
Proof.
  unfold roundDecimals, with_default. rewrite !int_exact.
  assert (Hfour : ToBoolean (Ex.XFin 4) = true).
  { cbv [ToBoolean Exact Ex.ToBoolean]. now rewrite is_zero_false by lra. }
  rewrite Hfour. cbv [Math_pow of_decimal Exact]. rewrite pow_ten by lia.
  unfold Ex.of_decimal. now replace (1 * powerRZ 10 4) with (powerRZ 10 4) by lra.
Qed.

Section Loop.

Variables loanAmount monthlyPayment period : Ex.xreal.

Let body := effectiveInterest_body loanAmount monthlyPayment period (int 12).
Let cond := effectiveInterest_cond (of_decimal 1 (-5)).

Lemma body_guess st :
  guess (body st) = (low st + (high st - low st) / int 2)%js.
Proof.
  unfold body, effectiveInterest_body.
  match goal with |- context [if ?c then _ else _] => destruct c end;
    simpl; apply add_comm.
Qed.

Lemma body_previousGuess st : previousGuess (body st) = guess st.
Proof.
  unfold body, effectiveInterest_body.
  now match goal with |- context [if ?c then _ else _] => destruct c end.
Qed.

Lemma body_ref_state st :
  ref_state (body st)
  = (if ref_provisional monthlyPayment (period * int 12)
          (low st + (high st - low st) / int 2) < loanAmount
     then {| ref_low := low st;
             ref_high := low st + (high st - low st) / int 2;
             ref_last := Some (low st + (high st - low st) / int 2) |}
     else {| ref_low := low st + (high st - low st) / int 2;
             ref_high := high st;
             ref_last := Some (low st + (high st - low st) / int 2) |})%js.
Proof.
  unfold body, effectiveInterest_body, ref_state, ref_provisional.
  replace ((high st - low st) / int 2 + low st)%js
    with (low st + (high st - low st) / int 2)%js by apply add_comm.
  match goal with |- context [if ?c then _ else _] => destruct c end; reflexivity.
Qed.

Lemma loop_refines :
  forall fuel st,
    option_map guess (do_while fuel body cond st)
    = ref_bisect fuel loanAmount monthlyPayment (period * int 12)%js (ref_state st).
Proof.
  induction fuel as [|fuel IH]; intros st; [reflexivity|].
  cbn [do_while ref_bisect ref_state ref_low ref_high ref_last].
  rewrite <- body_ref_state, <- IH.
  unfold cond at 1, effectiveInterest_cond.
  rewrite body_guess, body_previousGuess.
  destruct (Math_abs (low st + (high st - low st) / int 2 - guess st)
            > of_decimal 1 (-5))%js; cbn [negb]; [reflexivity|].
  cbn [option_map]. f_equal. apply body_guess.
Qed.

End Loop.

Lemma first_round_continues (loanAmount monthlyPayment period : Ex.xreal) :
  effectiveInterest_cond (of_decimal 1 (-5))
    (effectiveInterest_body loanAmount monthlyPayment period (int 12)
       effectiveInterest_init) = true.
Proof.
  unfold effectiveInterest_cond. rewrite body_guess, body_previousGuess.
  unfold effectiveInterest_init. cbn [high low guess]. rewrite !int_exact.
  cbv [lt sub add div Math_abs of_decimal Exact]. cbn [Ex.sub Ex.add Ex.neg].
  rewrite div_fin by lra. cbn [Ex.add Ex.neg Ex.abs]. unfold Ex.of_decimal.
  apply lt_fin. rewrite Rabs_pos_eq by lra.
  change (powerRZ 10 (-5)) with (/ 10 ^ 5). simpl. lra.
Qed.

Lemma solver_refines_exact (fuel : nat) (loanAmount monthlyPayment period : Ex.xreal) :
  effectiveInterest fuel loanAmount monthlyPayment period
  = solveEffectiveRate fuel loanAmount monthlyPayment period.
Proof.
  unfold effectiveInterest, solveEffectiveRate. rewrite guessLimit_exact.
  assert (Hloop :
    option_map guess
      (do_while fuel
         (effectiveInterest_body loanAmount monthlyPayment period (int 12))
         (effectiveInterest_cond (of_decimal 1 (-5))) effectiveInterest_init)
    = ref_bisect fuel loanAmount monthlyPayment (period * int 12)%js
        {| ref_low := int 1; ref_high := int 2; ref_last := None |}).
  { destruct fuel as [|fuel]; [reflexivity|].
    cbn [do_while ref_bisect ref_low ref_high ref_last].
    rewrite first_round_continues. cbv iota.
    rewrite loop_refines, body_ref_state. reflexivity. }
  rewrite <- Hloop.
  destruct (do_while fuel _ _ effectiveInterest_init) as [st|];
    cbn [option_map]; [|reflexivity].
  now rewrite roundDecimals_4_exact.
Qed.

End OnExact.

(** ** The claims *)

(** Numeric literals read as JavaScript reads them. *)
Lemma literals_read :
  B64.of_decimal 75 (-3) = 0.075%float /\ B64.of_decimal 40076 (-2) = 400.76%float
  /\ B64.of_decimal 3 (-4) = 0.0003%float /\ B64.of_decimal 20000 0 = 20000%float.
Proof. now vm_compute. Qed.



Lemma add_nan_l (x : float) : (nan + x)%float = nan.
Proof.
  apply Prim2SF_inj. rewrite add_spec.
  change (Prim2SF nan) with S754_nan. reflexivity.
Qed.

Section GenericSchedule.

Context {num : Type} {ops : NumberOps num}.
Local Open Scope js_scope.

Lemma never_increases_b_sound :
  forall (plan : list (ScheduleEntry num)) prev,
    never_increases_b prev plan = true -> remainder_never_increases prev plan.
Proof.
  induction plan as [|e rest IH]; intros prev Hb; simpl in *; [exact I|].
  apply andb_true_iff in Hb as [Hlt Hrest]. split; [|now apply IH].
  now apply negb_true_iff.
Qed.

Lemma paymentPlan_recurrence date loanAmount rate period principalFees periodFees plan :
  paymentPlanFromToday date loanAmount rate period principalFees periodFees
  = Return plan ->
  remainder_recurrence loanAmount plan.
Proof.
  rewrite paymentPlanFromToday_unfold. unfold Array_from.
  destruct (_ >? _)%Z; [discriminate|]. intros [= <-]. apply plan_recurrence.
Qed.

Lemma paymentPlan_length date loanAmount rate period principalFees periodFees :
  match paymentPlanFromToday date loanAmount rate period principalFees periodFees with
  | Return plan => List.length plan = Z.to_nat (ToLength (period * int 12)%js)
  | ThrowRangeError => (2 ^ 32 - 1 < ToLength (period * int 12)%js)%Z
  end.
Proof.
  rewrite paymentPlanFromToday_unfold. unfold Array_from.
  destruct (_ >? _)%Z eqn:Hgt; [lia|]. apply array_from_loop_length.
Qed.

End GenericSchedule.

Section Scenarios.

Variable pow : float -> float -> float.
Let ops : NumberOps float := Binary64 pow.
Local Existing Instance ops.
Hypothesis pow_faithful : Pow.faithful pow.
Local Open Scope float_scope.

Lemma fee_scenarios :
  amortizationWithFees 19000 0.075 5 (Some [JSNumber 1000]) None
    = _amortization 20000 0.075 5
  /\ amortizationWithFees 2100000 0.0197 25
       (Some [JSNumber 2000; JSNumber 1000]) (Some [JSNumber 100])
     = 8982.97.
Proof.
  unfold amortizationWithFees, with_default. split.
  - replace (19000 + sumArray [JSNumber 1000])%js with 20000 by now vm_compute.
    destruct (amortization_scenarios pow pow_faithful) as [E _].
    unfold ops. rewrite E. now vm_compute.
  - replace (2100000 + sumArray [JSNumber 2000; JSNumber 1000])%js with 2103000
      by now vm_compute.
    unfold ops.
    rewrite (DetFacts.amortization_det_sound pow _ _ _ 8882.97 pow_faithful)
      by now vm_compute.
    now vm_compute.
Qed.

(** The schedule of the payment plan test. *)
Lemma schedule_scenario (date : Date) :
  exists plan,
    paymentPlanFromToday date 4000000 0.025 25 None None = Return plan
    /\ never_increases_b 4000000 plan = true
    /\ match rev plan with
       | last :: before :: _ =>
           remainder last = 0 /\ downPayment last = remainder before
       | _ => False
       end.
Proof.
  rewrite paymentPlanFromToday_unfold. unfold ops.
  rewrite (DetFacts.amortization_det_sound pow _ _ _ 17944.67 pow_faithful)
    by now vm_compute.
  eexists. split; [reflexivity|]. split; [now vm_compute|].
  vm_compute. split; reflexivity.
Qed.

Lemma zero_rate_NaN (loanAmount period : float) :
  is_finite (period * 12) = true -> _amortization loanAmount 0 period = nan.
Proof.
  intros Hn.
  unfold _amortization, roundDecimals, int, with_default in *.
  cbv [of_decimal add sub mul div Math_pow Math_round ToBoolean NaN Binary64 ops] in *.
  change (B64.of_decimal 1 0 + 0 / B64.of_decimal 12 0) with 1.
  change (B64.of_decimal 12 0) with 12 in *.
  rewrite (pow_one pow pow_faithful _ Hn).
  change (0 / 12 * 1 / (1 - B64.of_decimal 1 0)) with nan.
  rewrite mul_nan_r.
  change (B64.ToBoolean (B64.of_decimal 2 0)) with true. cbv iota.
  rewrite (pow_exactly pow pow_faithful (B64.of_decimal 10 0) (B64.of_decimal 2 0) 100)
    by now vm_compute.
  now vm_compute.
Qed.

End Scenarios.








(** C5. For the loan {4000000, 0.025, 25}, whatever the date and whatever
    faithful [Math.pow] is used, the last entry of the schedule has remainder
    0 and a down payment equal to the remainder of the entry before it. *)
Theorem schedule_ends_at_zero (pow : float -> float -> float) (date : Date) :
  Pow.faithful pow ->
  match paymentPlanFromToday (ops := Binary64 pow) date
          4000000%float 0.025%float 25%float None None with
  | Return plan =>
      match rev plan with
      | last :: before :: _ =>
          remainder last = 0%float /\ downPayment last = remainder before
      | _ => False
      end
  | ThrowRangeError => False
  end.
Proof.
  intros Hf. destruct (schedule_scenario pow Hf date) as [plan [-> [_ Hlast]]].
  exact Hlast.
Qed.

Lemma schedule_ends_at_zero_witness :
  match paymentPlanFromToday (ops := Binary64 Pow.down)
          {| getFullYear := 1985; getMonth := 9 |}
          4000000%float 0.025%float 25%float None None with
  | Return plan =>
      match rev plan with
      | last :: before :: _ =>
          remainder last = 0%float /\ downPayment last = remainder before
      | _ => False
      end
  | ThrowRangeError => False
  end.
Proof.
  apply (schedule_ends_at_zero Pow.down). intros b y _. left. reflexivity.
Defined.



(** C7. The loop of [effectiveInterest] ends by its own test, for every
    input: whatever the loan, the payment and the period (and whatever
    faithful [Math.pow] is used), it makes exactly 17 rounds, so
    [effectiveInterest] returns as soon as it is allowed 17.  The bracket
    [high - low] starts at 1 and is halved by every round. *)
Theorem bisection_terminates (pow : float -> float -> float)
  (loanAmount monthlyPayment period : float) :
  Pow.faithful pow ->
  let body :=
    effectiveInterest_body (ops := Binary64 pow) loanAmount monthlyPayment period
      12%float in
  let cond := effectiveInterest_cond (ops := Binary64 pow) (pow 10 (-5))%float in
  let init := effectiveInterest_init (ops := Binary64 pow) in
  do_while 17 body cond init = Some (Nat.iter 17 body init)
  /\ (forall fuel, (fuel < 17)%nat -> do_while fuel body cond init = None)
  /\ (forall fuel,
        (exists v, effectiveInterest (ops := Binary64 pow) fuel
                     loanAmount monthlyPayment period = Some v)
        <-> (17 <= fuel)%nat)
  /\ (forall j, (j <= 17)%nat ->
        Tree.width (Nat.iter j body init) = Tree.halved j 1%float).
Proof.
  intros Hf body cond init.
  pose proof (guessLimit_tree_ok pow Hf) as Hok.
  destruct (TreeFacts.tree_ok_runs body (TreeFacts.body_branches pow _ _ _ _) _ _ _ _ Hok)
    as [Hrun Hnone].
  change (Tree.continues _) with cond in Hrun, Hnone.
  change Tree.init with init in Hrun, Hnone.
  assert (Hnone' : forall fuel, (fuel < 17)%nat -> do_while fuel body cond init = None).
  { intros fuel Hlt. apply Hnone. lia. }
  split; [exact Hrun|]. split; [exact Hnone'|]. split.
  - intros fuel. unfold effectiveInterest.
    change (do_while fuel _ _ _) with (do_while fuel body cond init). split.
    + intros [v Hv]. destruct (Nat.le_gt_cases 17 fuel) as [Hle|Hgt]; [exact Hle|].
      apply Hnone' in Hgt. rewrite Hgt in Hv. discriminate.
    + intros Hle. rewrite (do_while_more_fuel _ _ _ _ _ Hrun _ Hle). eauto.
  - intros j Hj.
    apply (TreeFacts.tree_ok_halves body (TreeFacts.body_branches pow _ _ _ _)
             _ _ _ _ Hok j Hj).
Qed.

Lemma bisection_terminates_witness :
  (exists v, effectiveInterest (ops := Binary64 Pow.down) 17
               17000%float 518%float 5%float = Some v)
  /\ do_while 16
       (effectiveInterest_body (ops := Binary64 Pow.down)
          17000%float 518%float 5%float 12%float)
       (effectiveInterest_cond (ops := Binary64 Pow.down) (Pow.down 10 (-5))%float)
       (effectiveInterest_init (ops := Binary64 Pow.down)) = None.
Proof.
  assert (Hf : Pow.faithful Pow.down) by (intros b y _; left; reflexivity).
  destruct (bisection_terminates Pow.down 17000%float 518%float 5%float Hf)
    as [_ [Hnone [Hret _]]].
  split.
  - apply Hret. apply le_n.
  - apply Hnone. apply le_n.
Defined.




(** C9. With a rate of exactly 0 the payment is NaN, for every loan amount
    and every period whose number of months is finite: 0/0 in the formula.
    No error is raised; the NaN goes on through [amortizationWithFees]. *)
Theorem zero_rate_is_NaN (pow : float -> float -> float)
  (loanAmount period : float)
  (principalFees periodFees : option (list (JSValue float))) :
  Pow.faithful pow -> is_finite (period * 12)%float = true ->
  _amortization (ops := Binary64 pow) loanAmount 0%float period = nan
  /\ amortizationWithFees (ops := Binary64 pow) loanAmount 0%float period
       principalFees periodFees = nan.
Proof.
  intros Hf Hn. split; [now apply zero_rate_NaN|].
  unfold amortizationWithFees.
  change (int 0) with 0%float.
  rewrite (zero_rate_NaN pow Hf _ _ Hn). apply add_nan_l.
Qed.

Lemma zero_rate_is_NaN_witness :
  _amortization (ops := Binary64 Pow.down) 20000%float 0%float 5%float = nan
  /\ amortizationWithFees (ops := Binary64 Pow.down) 20000%float 0%float 5%float
       (Some [JSNumber 1000%float]) None = nan.
Proof.
  apply (zero_rate_is_NaN Pow.down).
  - intros b y _. left. reflexivity.
  - reflexivity.
Defined.


